(** * S3-Migration: a shallow embedding of [migrate.go]

    The program lists the objects of a source bucket, downloads each one
    into a local staging directory, walks that directory and uploads every
    file to a destination bucket, then removes the staging directory.

    The Go standard library functions the program relies on for paths
    ([filepath.Join], [filepath.Dir], [filepath.Rel], [filepath.Clean],
    [filepath.ToSlash], [strings.TrimPrefix]) are modelled for a Unix
    platform, whose separator is ['/'].  The network and the operating
    system are an oracle ([World]) that decides the outcome of every
    request and system call. *)

From Stdlib Require Import Ascii.
From stdpp Require Import base gmap strings list pretty.

(* ================================================================== *)
(** * Paths (package [path/filepath] on Unix) *)
(* ================================================================== *)

Module FilePath.

Definition sep : ascii := "/"%char.

(** The elements of a path separated by ['/']; [""] gives [[""]]. *)
Fixpoint split_slash (s : string) : list string :=
  match s with
  | EmptyString => [""]
  | String c s' =>
      let r := split_slash s' in
      if ascii_dec c sep then "" :: r
      else match r with
           | [] => [String c EmptyString]
           | x :: rest => String c x :: rest
           end
  end.

(** [strings.Join(elems, "/")]. *)
Definition join_slash (l : list string) : string := String.concat "/" l.

Definition starts_with_slash (s : string) : bool :=
  match s with
  | String c _ => if ascii_dec c sep then true else false
  | EmptyString => false
  end.

Definition str_eqb (a b : string) : bool := bool_decide (a = b).

(** The element stack of [Clean]: empty and ["."] elements are dropped,
    [".."] removes the preceding element; at the start of a rooted path it
    is dropped, at the start of a relative path it is kept. *)
Fixpoint clean_go (rooted : bool) (stk : list string) (l : list string)
    : list string :=
  match l with
  | [] => rev stk
  | x :: l' =>
      if str_eqb x "" || str_eqb x "." then clean_go rooted stk l'
      else if str_eqb x ".." then
        match stk with
        | y :: stk' =>
            if str_eqb y ".." then clean_go rooted (x :: stk) l'
            else clean_go rooted stk' l'
        | [] => if rooted then clean_go rooted [] l'
                else clean_go rooted [".."] l'
        end
      else clean_go rooted (x :: stk) l'
  end.

Definition render (rooted : bool) (segs : list string) : string :=
  if rooted then "/" +:+ join_slash segs
  else match segs with
       | [] => "."
       | _ => join_slash segs
       end.

(** [filepath.Clean]. *)
Definition clean (p : string) : string :=
  let rooted := starts_with_slash p in
  render rooted (clean_go rooted [] (split_slash p)).

(** [filepath.Join(a, b)]: empty leading elements are ignored, the rest is
    joined with ['/'] and cleaned; all elements empty gives [""]. *)
Definition join (a b : string) : string :=
  if str_eqb a "" then (if str_eqb b "" then "" else clean b)
  else clean (a +:+ "/" +:+ b).

(** [filepath.Dir]: everything up to and including the last separator,
    cleaned ([Clean("")] is ["."]). *)
Definition dir (p : string) : string :=
  match split_slash p with
  | [_] => clean ""
  | segs => clean (join_slash (removelast segs) +:+ "/")
  end.

(** The element list that [Rel]'s scanning loop walks through. *)
Definition rel_segs (s : string) : list string :=
  if str_eqb s "" then []
  else if str_eqb s "/" then [""]
  else split_slash s.

Fixpoint strip_common (b t : list string) : list string * list string :=
  match b, t with
  | x :: b', y :: t' =>
      if str_eqb x y then strip_common b' t' else (b, t)
  | _, _ => (b, t)
  end.

(** [filepath.Rel(basepath, targpath)]; [None] is the error result. *)
Definition rel (basepath targpath : string) : option string :=
  let base := clean basepath in
  let targ := clean targpath in
  if str_eqb targ base then Some "."
  else
    let base := if str_eqb base "." then "" else base in
    if negb (Bool.eqb (starts_with_slash base) (starts_with_slash targ))
    then None
    else
      let '(b, t) := strip_common (rel_segs base) (rel_segs targ) in
      match b with
      | x :: _ =>
          if str_eqb x ".." then None
          else Some (join_slash (map (fun _ => "..") b ++ t))
      | [] => Some (join_slash t)
      end.

(** [filepath.ToSlash] is the identity where the separator is ['/']. *)
Definition to_slash (p : string) : string := p.

(** [strings.TrimPrefix(s, "./")]. *)
Definition trim_dot_slash (s : string) : string :=
  match s with
  | String c1 (String c2 rest) =>
      if ascii_dec c1 "."%char then
        if ascii_dec c2 sep then rest else s
      else s
  | _ => s
  end.

End FilePath.

Import FilePath.

(** The staging path of an object key (line 99 of [downloadFiles]). *)
Definition toLocalPath (localPath key : string) : string := join localPath key.

(** The destination key of a staged file (lines 162-165 of [uploadFiles]):
    the error of [filepath.Rel] is discarded, leaving [relPath = ""]. *)
Definition toObjectKey (directory path : string) : string :=
  let relPath := default "" (rel directory path) in
  trim_dot_slash (to_slash relPath).

(** A key whose ['/']-separated elements are all non-empty and none is
    ["."] or [".."]: a key that [filepath.Clean] leaves as it is. *)
Definition clean_key (key : string) : bool :=
  forallb (fun x => negb (str_eqb x "" || str_eqb x "." || str_eqb x ".."))
    (split_slash key).

(* ================================================================== *)
(** * Data model *)
(* ================================================================== *)

(** [S3Config] and [Config] (lines 17-29). *)
Record S3Config := mkS3Config {
  AccessKey : string;
  SecretKey : string;
  Endpoint : string;
  Bucket : string;
  LocalDownloadPath : string;
  Region : string
}.

Record Config := mkConfig { Source : S3Config; Destination : S3Config }.

(** An entry of [ListObjectsOutput.Contents]: its [Key] and [Size]. *)
Record Object := mkObject { Key : string; Size : Z }.

(** The outcome of every external operation.  [w_bucket] is the source
    bucket in the order the listing API returns it; the data of an object is
    what [GetObject] returns for its key.  Each [w_*_fails] field says which
    calls fail; [w_copy_fails k = Some n] means [io.Copy] for key [k] fails
    after writing [n] bytes. *)
Record World := mkWorld {
  w_config : option Config;            (* readConfig *)
  w_bucket : list Object;              (* source bucket, listing order *)
  w_list_fails : bool;                 (* client.ListObjects *)
  w_get : string -> option string;     (* client.GetObject: body or error *)
  w_mkdir_fails : string -> bool;      (* os.MkdirAll, by path *)
  w_create_fails : string -> bool;     (* os.Create, by path *)
  w_copy_fails : string -> option nat; (* io.Copy, by key *)
  w_open_fails : string -> bool;       (* os.Open, by path *)
  w_put_fails : string -> bool;        (* client.PutObject, by key *)
  w_remove_fails : bool;               (* os.RemoveAll *)
  w_session_fails : string -> string -> bool;
                                       (* session.NewSession, by endpoint and region *)
  w_lstat_fails : string -> bool;      (* os.Lstat in filepath.Walk, by path *)
  w_readdir_fails : string -> bool     (* reading a directory in filepath.Walk *)
}.

(** Observable actions of a run, in order. *)
Inductive event :=
  | EvList (bucket : string)              (* ListObjects request *)
  | EvGet (key : string)                  (* GetObject request *)
  | EvCreate (path : string)              (* os.Create: opens a handle *)
  | EvOpen (path : string)                (* os.Open: opens a handle *)
  | EvClose (path : string)               (* File.Close *)
  | EvPut (key : string) (data : string)  (* PutObject request *)
  | EvPrint (line : string)               (* fmt.Println *)
  | EvPanic.                              (* panic of session.Must *)

(** Local file system (regular files with their contents, directories)
    and the log of events.  Paths are recorded in cleaned form, the form
    [filepath.Join] gives them; a relative path is relative to the working
    directory, whose own name is not modelled. *)
Record St := mkSt {
  st_files : gmap string string;
  st_dirs : gset string;
  st_log : list event
}.

Definition log (e : event) (s : St) : St :=
  mkSt (st_files s) (st_dirs s) (st_log s ++ [e]).

Definition say (line : string) (s : St) : St := log (EvPrint line) s.

Definition write_file (p data : string) (s : St) : St :=
  mkSt (<[p := data]> (st_files s)) (st_dirs s) (st_log s).

(** Go's [error] results. *)
Inductive error :=
  | ErrList | ErrMkdir (p : string) | ErrOpen (p : string)
  | ErrPut (key : string) | ErrLstat (p : string) | ErrReadDir (p : string)
  | ErrRemove (p : string).

(** The outcome of [downloadFiles] and [uploadFiles]: [nil], an error, or
    the panic of [session.Must] when the session cannot be created (the
    process then exits with status 2, see [main]). *)
Inductive res := Ok | Err (e : error) | Panic.

(** The elements of a cleaned path and whether it is rooted. *)
Definition path_elems (p : string) : bool * list string :=
  let r := starts_with_slash p in (r, clean_go r [] (split_slash p)).

Fixpoint is_prefix (l1 l2 : list string) : bool :=
  match l1, l2 with
  | [], _ => true
  | x :: l1', y :: l2' => str_eqb x y && is_prefix l1' l2'
  | _ :: _, [] => false
  end.

(** [p] is [root] or lies below it: the cleaned elements of [p] extend
    those of [root], and what follows does not climb back with [".."]
    (["../x"] is not below ["."], nor ["../../x"] below [".."]). *)
Definition under (root p : string) : bool :=
  let '(r1, e1) := path_elems root in
  let '(r2, e2) := path_elems p in
  Bool.eqb r1 r2 && is_prefix e1 e2 &&
  negb (match drop (length e1) e2 with x :: _ => str_eqb x ".." | [] => false end).

(** [p] lies strictly below [root]. *)
Definition strictly_under (root p : string) : bool :=
  under root p && Nat.ltb (length (path_elems root).2) (length (path_elems p).2).

(** [os.MkdirAll]: the empty path fails; otherwise the path and all its
    ancestors become directories, unless the oracle makes the call fail. *)
Definition mkdir_all (w : World) (p : string) (s : St) : option St :=
  if str_eqb p "" then None
  else if w_mkdir_fails w p then None
  else
    let '(r, e) := path_elems p in
    let anc := map (fun i => render r (firstn i e)) (seq 1 (length e)) in
    Some (mkSt (st_files s) ({[clean p]} ∪ list_to_set anc ∪ st_dirs s)
               (st_log s)).

(** [os.RemoveAll]: [""] is a no-op success, a path ending in ["."] is
    rejected with [EINVAL]; otherwise the path and everything below it is
    removed, unless the oracle makes the call fail. *)
Definition ends_with_dot (p : string) : bool :=
  match last (split_slash p) with Some x => str_eqb x "." | None => false end.

Definition remove_all (w : World) (p : string) (s : St) : option St :=
  if str_eqb p "" then Some s
  else if ends_with_dot p then None
  else if w_remove_fails w then None
  else Some (mkSt (filter (fun kv => negb (under p kv.1)) (st_files s))
                  (filter (fun d => negb (under p d)) (st_dirs s))
                  (st_log s)).

(* ================================================================== *)
(** * [downloadFiles] (lines 79-135) *)
(* ================================================================== *)

(** [ListObjects] without a marker returns the first page of at most
    [MaxKeys] (1000 by default) keys; [IsTruncated] and [NextMarker] are not
    read by the program, so they are not modelled. *)
Definition maxKeys : nat := 1000.

Definition listObjectsContents (w : World) : list Object :=
  firstn maxKeys (w_bucket w).

(** One iteration of the loop of lines 98-132.  [defers] is the stack of
    [localFile.Close()] calls registered by [defer] so far; they run when
    [downloadFiles] returns.  Every error is printed and ends the iteration
    ([continue]). *)
Definition download_object (w : World) (localPath : string) (object : Object)
    (defers : list string) (s : St) : list string * St :=
  let localFilePath := join localPath (Key object) in
  match mkdir_all w (dir localFilePath) s with
  | None => (defers, say "Error creating subdirectories:" s)
  | Some s =>
      let s := log (EvGet (Key object)) s in
      match w_get w (Key object) with
      | None => (defers, say ("Error getting object: " +:+ Key object) s)
      | Some body =>
          if Z.ltb 0 (Size object) then
            if w_create_fails w localFilePath then
              (defers, say ("Error creating local file: " +:+ localFilePath) s)
            else
              let s := write_file localFilePath "" (log (EvCreate localFilePath) s) in
              let defers := localFilePath :: defers in
              match w_copy_fails w (Key object) with
              | Some n =>
                  (defers, say ("Error copying object to local file: " +:+ Key object)
                             (write_file localFilePath (String.substring 0 n body) s))
              | None =>
                  (defers, say ("Downloaded file: " +:+ Key object)
                             (write_file localFilePath body s))
              end
          else (defers, s)
      end
  end.

Fixpoint download_loop (w : World) (localPath : string) (objects : list Object)
    (defers : list string) (s : St) : list string * St :=
  match objects with
  | [] => (defers, s)
  | object :: rest =>
      let '(defers, s) := download_object w localPath object defers s in
      download_loop w localPath rest defers s
  end.

(** Deferred calls run last-registered first. *)
Definition run_defers (defers : list string) (s : St) : St :=
  fold_left (fun s p => log (EvClose p) s) defers s.

(** Lines 80-87: [session.Must] panics when [session.NewSession] fails;
    no deferred call is registered yet. *)
Definition downloadFiles (w : World)
    (accessKey secretKey endpoint bucket localPath region : string) (s : St)
    : res * St :=
  if w_session_fails w endpoint region then (Panic, s) else
  let s := log (EvList bucket) s in
  if w_list_fails w then (Err ErrList, s)
  else
    let '(defers, s) := download_loop w localPath (listObjectsContents w) [] s in
    (Ok, run_defers defers s).

(* ================================================================== *)
(** * [uploadFiles] (lines 137-184) *)
(* ================================================================== *)

(** [filepath.Walk] visits a directory, then its entries sorted by name,
    descending into subdirectories: the order of the element lists
    compared lexicographically, element by element in byte order. *)
Fixpoint elems_leb (a b : list string) : bool :=
  match a, b with
  | [], _ => true
  | _ :: _, [] => false
  | x :: a', y :: b' =>
      if str_eqb x y then elems_leb a' b' else String.ltb x y
  end.

Definition walk_leb (p q : string) : bool :=
  elems_leb (path_elems p).2 (path_elems q).2.

Fixpoint insert_sorted (p : string) (l : list string) : list string :=
  match l with
  | [] => [p]
  | q :: l' => if walk_leb p q then p :: l else q :: insert_sorted p l'
  end.

Definition sort_walk (l : list string) : list string :=
  fold_right insert_sorted [] l.

(** The files and directories strictly below [root], in walk order.  The
    path [filepath.Join] builds for an entry is its recorded path. *)
Definition walk_entries (s : St) (root : string) : list string :=
  sort_walk (List.filter (strictly_under root)
               (elements (dom (st_files s) ∪ st_dirs s))).

(** What the walk function receives, one call per item: a regular file
    with its contents, a directory, or the error of [os.Lstat] or of
    reading a directory. *)
Inductive walk_item :=
  | WFile (path data : string)
  | WDir (path : string)
  | WErr (e : error).

(** The call for an entry below the root: [lstat] of the entry, then, for
    a directory, the reading of its names ([walk] passes that error to the
    walk function at the directory itself). *)
Definition walk_entry (w : World) (s : St) (p : string) : walk_item :=
  if w_lstat_fails w p then WErr (ErrLstat p)
  else if bool_decide (p ∈ st_dirs s) then
    (if w_readdir_fails w p then WErr (ErrReadDir p) else WDir p)
  else match st_files s !! p with
       | Some data => WFile p data
       | None => WErr (ErrLstat p)
       end.

(** The calls of [filepath.Walk(directory, fn)], in order.  [os.Lstat] of
    the root fails for [""], for a missing path and where the oracle says
    so; a regular file as root is visited alone, under the path as given;
    a directory root is passed as given, then its entries follow. *)
Definition walk_visits (w : World) (s : St) (directory : string)
    : list walk_item :=
  if str_eqb directory "" || w_lstat_fails w directory then
    [WErr (ErrLstat directory)]
  else if bool_decide (clean directory ∈ st_dirs s) then
    (if w_readdir_fails w directory then WErr (ErrReadDir directory)
     else WDir directory)
    :: map (walk_entry w s) (walk_entries s directory)
  else match st_files s !! clean directory with
       | Some data => [WFile directory data]
       | None => [WErr (ErrLstat directory)]
       end.

(** The walk function of lines 147-181 applied to a regular file [path].
    [defer file.Close()] runs when the function returns. *)
Definition upload_visit (w : World) (bucket directory : string)
    (file : string * string) (s : St) : res * St :=
  let '(path, data) := file in
  if w_open_fails w path then (Err (ErrOpen path), s)
  else
    let s := log (EvOpen path) s in
    let uploadKey := toObjectKey directory path in
    if Nat.ltb 0 (String.length data) then
      let s := log (EvPut uploadKey data) s in
      if w_put_fails w uploadKey then (Err (ErrPut uploadKey), log (EvClose path) s)
      else (Ok, log (EvClose path) s)
    else (Ok, log (EvClose path) s).

(** The walk function on one call: an error it receives is returned, a
    directory returns [nil], a regular file is uploaded. *)
Definition walk_fn (w : World) (bucket directory : string) (it : walk_item)
    (s : St) : res * St :=
  match it with
  | WErr e => (Err e, s)
  | WDir _ => (Ok, s)
  | WFile path data => upload_visit w bucket directory (path, data) s
  end.

(** [filepath.Walk] stops at the first error the walk function returns. *)
Fixpoint upload_walk (w : World) (bucket directory : string)
    (items : list walk_item) (s : St) : res * St :=
  match items with
  | [] => (Ok, s)
  | it :: rest =>
      match walk_fn w bucket directory it s with
      | (Ok, s) => upload_walk w bucket directory rest s
      | (r, s) => (r, s)
      end
  end.

(** Lines 138-145: [session.Must] panics when [session.NewSession] fails. *)
Definition uploadFiles (w : World)
    (accessKey secretKey endpoint bucket directory region : string) (s : St)
    : res * St :=
  if w_session_fails w endpoint region then (Panic, s)
  else upload_walk w bucket directory (walk_visits w s directory) s.

(* ================================================================== *)
(** * [main] (lines 31-64) *)
(* ================================================================== *)

(** Lines 51-63: upload, removal of the staging directory, completion
    message.  The process exits with the returned status; a panic of
    [session.Must] exits with status 2 after the panic message on the
    standard error ([EvPanic]). *)
Definition main_upload_phase (w : World) (config : Config) (s : St) : Z * St :=
  let src := Source config in
  let dst := Destination config in
  match uploadFiles w (AccessKey dst) (SecretKey dst) (Endpoint dst)
          (Bucket dst) (LocalDownloadPath src) (Region dst) s with
  | (Err _, s) => (1%Z, say "Error uploading files:" s)
  | (Panic, s) => (2%Z, log EvPanic s)
  | (Ok, s) =>
      match remove_all w (LocalDownloadPath src) s with
      | None => (1%Z, say "Error deleting files and directory:" s)
      | Some s =>
          (0%Z, say "Download and upload complete. Deleted local files and directory." s)
      end
  end.

(** Lines 31-63: the exit status of the process and its final state. *)
Definition main (w : World) (s : St) : Z * St :=
  match w_config w with
  | None => (1%Z, say "Error reading config file:" s)
  | Some config =>
      let src := Source config in
      match mkdir_all w (LocalDownloadPath src) s with
      | None => (1%Z, say "Error creating download directory:" s)
      | Some s =>
          match downloadFiles w (AccessKey src) (SecretKey src) (Endpoint src)
                  (Bucket src) (LocalDownloadPath src) (Region src) s with
          | (Err _, s) => (1%Z, say "Error downloading files:" s)
          | (Panic, s) => (2%Z, log EvPanic s)
          | (Ok, s) => main_upload_phase w config s
          end
      end
  end.

(* ================================================================== *)
(** * Observations on runs *)
(* ================================================================== *)

(** [os.MkdirAll] succeeds on [p]. *)
Definition mkdir_ok (w : World) (p : string) : bool :=
  negb (str_eqb p "") && negb (w_mkdir_fails w p).

(** What the download of [object] writes at its staging path: a file exists
    when the directory creation, the fetch and [os.Create] succeed and the
    size is positive; it holds the bytes [io.Copy] wrote. *)
Definition staged_file (w : World) (localPath : string) (object : Object)
    : option string :=
  let localFilePath := join localPath (Key object) in
  if mkdir_ok w (dir localFilePath) then
    match w_get w (Key object) with
    | Some body =>
        if Z.ltb 0 (Size object) && negb (w_create_fails w localFilePath) then
          Some (match w_copy_fails w (Key object) with
                | Some n => String.substring 0 n body
                | None => body
                end)
        else None
    | None => None
    end
  else None.

(** The file at [p] after the download of [objects] from [files]. *)
Definition staging_after (w : World) (localPath : string) (objects : list Object)
    (files : gmap string string) (p : string) : option string :=
  match find (fun o => str_eqb (join localPath (Key o)) p) objects with
  | Some o => match staged_file w localPath o with
              | Some d => Some d
              | None => files !! p
              end
  | None => files !! p
  end.

(** The keys of the [GetObject] requests in a log. *)
Definition gets (l : list event) : list string :=
  omap (fun e => match e with EvGet k => Some k | _ => None end) l.

(** The buckets of the [ListObjects] requests in a log. *)
Definition lists (l : list event) : list string :=
  omap (fun e => match e with EvList b => Some b | _ => None end) l.

(** The [PutObject] requests in a log. *)
Definition puts (l : list event) : list (string * string) :=
  omap (fun e => match e with EvPut k d => Some (k, d) | _ => None end) l.

Definition creates (l : list event) : list string :=
  omap (fun e => match e with EvCreate p => Some p | _ => None end) l.

(** The largest number of local file handles open at once. *)
Fixpoint peak_open (l : list event) (cur best : nat) : nat :=
  match l with
  | [] => best
  | (EvCreate _ | EvOpen _) :: l' => peak_open l' (S cur) (Nat.max best (S cur))
  | EvClose _ :: l' => peak_open l' (Nat.pred cur) best
  | _ :: l' => peak_open l' cur best
  end.

Definition res_ok (r : res) : bool := match r with Ok => true | _ => false end.


Definition is_close (e : event) : bool :=
  match e with EvClose _ => true | _ => false end.

(** The regular files among the calls of a walk. *)
Definition item_files (items : list walk_item) : list (string * string) :=
  omap (fun it => match it with WFile p d => Some (p, d) | _ => None end) items.

Definition is_err (it : walk_item) : bool :=
  match it with WErr _ => true | _ => false end.

(** The [PutObject] requests the walk function makes for [items] when no
    call fails: one per non-empty file, in visiting order. *)
Definition expected_puts (directory : string) (items : list walk_item)
    : list (string * string) :=
  map (fun f => (toObjectKey directory f.1, f.2))
    (List.filter (fun f => Nat.ltb 0 (String.length f.2)) (item_files items)).

(** The walk function returns an error for this call. *)
Definition visit_fails (w : World) (directory : string) (it : walk_item) : bool :=
  match it with
  | WErr _ => true
  | WDir _ => false
  | WFile p d =>
      w_open_fails w p ||
      (Nat.ltb 0 (String.length d) && w_put_fails w (toObjectKey directory p))
  end.

(* ================================================================== *)
(** * Sample configurations and worlds *)
(* ================================================================== *)

Definition sample_config : Config :=
  mkConfig (mkS3Config "AK" "SK" "http://source:9000" "src-bucket" "stage" "us-east-1")
           (mkS3Config "AK2" "SK2" "http://dest:9000" "dst-bucket" "" "us-east-1").

Definition empty_st : St := mkSt ∅ ∅ [].

(** A world in which every call succeeds. *)
Definition ok_world (bucket : list Object) (body : string -> option string) : World :=
  mkWorld (Some sample_config) bucket false body (fun _ => false) (fun _ => false)
    (fun _ => None) (fun _ => false) (fun _ => false) false
    (fun _ _ => false) (fun _ => false) (fun _ => false).

(** The scenario of the specification: [a.txt] (5 bytes), [dir/b.txt]
    (0 bytes), [dir/c.txt] (3 bytes). *)
Definition sample_body (k : string) : option string :=
  if str_eqb k "a.txt" then Some "hello"
  else if str_eqb k "dir/b.txt" then Some ""
  else if str_eqb k "dir/c.txt" then Some "abc"
  else None.

Definition sample_bucket : list Object :=
  [mkObject "a.txt" 5; mkObject "dir/b.txt" 0; mkObject "dir/c.txt" 3].

Definition sample_world : World := ok_world sample_bucket sample_body.

(** The same bucket; copying [a.txt] to its local file fails after 2 bytes. *)
Definition copy_fail_world : World :=
  mkWorld (Some sample_config) sample_bucket false sample_body (fun _ => false)
    (fun _ => false) (fun k => if str_eqb k "a.txt" then Some 2 else None)
    (fun _ => false) (fun _ => false) false
    (fun _ _ => false) (fun _ => false) (fun _ => false).


(** The sample bucket; the destination rejects the upload of [dir/c.txt]. *)
Definition put_fail_world : World :=
  mkWorld (Some sample_config) sample_bucket false sample_body (fun _ => false)
    (fun _ => false) (fun _ => None) (fun _ => false)
    (fun k => str_eqb k "dir/c.txt") false
    (fun _ _ => false) (fun _ => false) (fun _ => false).

(** The sample bucket; the copy of [a.txt] fails before any byte is
    written, leaving an empty staged file, and opening that file fails. *)
Definition open_fail_world : World :=
  mkWorld (Some sample_config) sample_bucket false sample_body (fun _ => false)
    (fun _ => false) (fun k => if str_eqb k "a.txt" then Some 0 else None)
    (fun p => str_eqb p "stage/a.txt") (fun _ => false) false
    (fun _ _ => false) (fun _ => false) (fun _ => false).


(** The sample bucket; the session for the destination cannot be created. *)
Definition session_fail_world : World :=
  mkWorld (Some sample_config) sample_bucket false sample_body (fun _ => false)
    (fun _ => false) (fun _ => None) (fun _ => false) (fun _ => false) false
    (fun e _ => str_eqb e "http://dest:9000") (fun _ => false) (fun _ => false).

(** A bucket of 1001 one-byte objects [k0] ... [k1000]: one more than a
    listing page. *)
Definition big_bucket : list Object :=
  map (fun i => mkObject ("k" +:+ pretty (N.of_nat i)) 1) (seq 0 1001).

Definition big_world : World := ok_world big_bucket (fun _ => Some "x").

(** The state of a run on the sample bucket once the download phase is over. *)
Definition sample_staged : St :=
  (downloadFiles sample_world "AK" "SK" "http://source:9000" "src-bucket" "stage"
     "us-east-1" (default empty_st (mkdir_all sample_world "stage" empty_st))).2.

(* ================================================================== *)
(** * The model on small inputs *)
(* ================================================================== *)

Example join_ex1 : toLocalPath "/tmp/stage" "dir/c.txt" = "/tmp/stage/dir/c.txt".
Proof. reflexivity. Qed.
Example join_ex2 : toLocalPath "./stage/" "a//b" = "stage/a/b".
Proof. reflexivity. Qed.
Example rel_ex1 : toObjectKey "./stage/" "stage/dir/c.txt" = "dir/c.txt".
Proof. reflexivity. Qed.
Example rel_ex2 : rel "/a/b" "/a/c/d" = Some "../c/d".
Proof. reflexivity. Qed.
Example rel_ex3 : rel "/" "/a" = Some "a".
Proof. reflexivity. Qed.
Example clean_ex : clean "../a/../../b/./c/" = "../../b/c".
Proof. reflexivity. Qed.
Example dir_ex : dir "stage/a/b" = "stage/a" /\ dir "b" = "." /\ dir "/b" = "/".
Proof. split; [|split]; reflexivity. Qed.

(* ================================================================== *)
(** * Lemmas on paths *)
(* ================================================================== *)

Section PathLemmas.

Lemma str_eqb_true a b : str_eqb a b = true <-> a = b.
Proof. unfold str_eqb. apply bool_decide_eq_true. Qed.

Lemma str_eqb_false a b : str_eqb a b = false <-> a <> b.
Proof. unfold str_eqb. apply bool_decide_eq_false. Qed.

Lemma str_eqb_refl a : str_eqb a a = true.
Proof. by apply str_eqb_true. Qed.

Lemma split_slash_not_nil s : split_slash s <> [].
Proof.
  destruct s as [|c s']; simpl; [done|].
  destruct (ascii_dec c sep); [done|]. by destruct (split_slash s').
Qed.

Lemma split_slash_app a b :
  split_slash (a +:+ String sep b) = split_slash a ++ split_slash b.
Proof.
  induction a as [|c a IH]; simpl.
  - reflexivity.
  - rewrite IH. destruct (ascii_dec c sep); [done|].
    destruct (split_slash a) eqn:E; [by destruct (split_slash_not_nil a)|].
    reflexivity.
Qed.

Lemma join_slash_cons_char c x l :
  join_slash (String c x :: l) = String c (join_slash (x :: l)).
Proof. by destruct l. Qed.

Lemma join_split s : join_slash (split_slash s) = s.
Proof.
  induction s as [|c s IH]; simpl; [done|].
  destruct (ascii_dec c sep) as [->|Hc].
  - destruct (split_slash s) as [|x r] eqn:E; [by destruct (split_slash_not_nil s)|].
    change (join_slash ("" :: x :: r)) with (String sep (join_slash (x :: r))).
    by rewrite IH.
  - destruct (split_slash s) as [|x r] eqn:E; [by destruct (split_slash_not_nil s)|].
    rewrite join_slash_cons_char. by rewrite IH.
Qed.

(** Every element of a split is free of separators. *)
Lemma split_slash_elems s : Forall (fun x => split_slash x = [x]) (split_slash s).
Proof.
  induction s as [|c s IH]; simpl; [by repeat constructor|].
  destruct (ascii_dec c sep); [by constructor|].
  destruct (split_slash s) as [|x r] eqn:E; [by destruct (split_slash_not_nil s)|].
  inversion IH as [|? ? Hx Hr]; subst. constructor; [|done].
  simpl. rewrite Hx. by destruct (ascii_dec c sep).
Qed.

Lemma split_join l :
  l <> [] -> Forall (fun x => split_slash x = [x]) l ->
  split_slash (join_slash l) = l.
Proof.
  induction l as [|x l IH]; [done|]. intros _ Hl.
  inversion Hl as [|? ? Hx Hr]; subst.
  destruct l as [|y l]; [done|].
  change (join_slash (x :: y :: l)) with (x +:+ String sep (join_slash (y :: l))).
  rewrite split_slash_app, Hx, IH; done.
Qed.

Lemma starts_with_slash_app a b :
  a <> "" -> starts_with_slash (a +:+ b) = starts_with_slash a.
Proof. by destruct a. Qed.

(** A path whose first element is non-empty does not start with ['/']. *)
Lemma starts_with_slash_hd s x l :
  split_slash s = x :: l -> x <> "" -> starts_with_slash s = false.
Proof.
  destruct s as [|c s]; simpl; [done|]. intros Hs Hx.
  destruct (ascii_dec c sep); [|done]. injection Hs. intros _ <-. done.
Qed.

(** An element that [Clean] keeps as it is, wherever it occurs. *)
Definition plain_seg (x : string) : Prop :=
  split_slash x = [x] /\ x <> "" /\ x <> "." /\ x <> "..".

(** The shape of the element list [Clean] produces: separator-free,
    non-empty elements other than ["."], with the [".."] elements only at
    the start of a relative path. *)
Definition normal (r : bool) (l : list string) : Prop :=
  Forall (fun x => split_slash x = [x] /\ x <> "" /\ x <> ".") l /\
  exists n rest, l = replicate n ".." ++ rest /\
    Forall (fun x => x <> "..") rest /\ (r = true -> n = 0).

Lemma clean_go_app r stk l1 l2 :
  clean_go r stk (l1 ++ l2) = clean_go r (rev (clean_go r stk l1)) l2.
Proof.
  revert stk. induction l1 as [|x l1 IH]; intros stk; simpl.
  - by rewrite rev_involutive.
  - destruct (str_eqb x "" || str_eqb x "."); [apply IH|].
    destruct (str_eqb x ".."); [|apply IH].
    destruct stk as [|y stk']; [destruct r|destruct (str_eqb y "..")]; apply IH.
Qed.

Lemma clean_go_plain r stk l :
  Forall plain_seg l -> clean_go r stk l = rev stk ++ l.
Proof.
  revert stk. induction l as [|x l IH]; intros stk Hl; simpl; [by rewrite app_nil_r|].
  inversion Hl as [|? ? (_ & H1 & H2 & H3) Hr]; subst.
  apply str_eqb_false in H1, H2, H3. rewrite H1, H2, H3. simpl.
  rewrite IH by done. simpl. by rewrite <- app_assoc.
Qed.

Lemma clean_go_dotdot n m rest :
  clean_go false (replicate m "..") (replicate n ".." ++ rest) =
  clean_go false (replicate (m + n) "..") rest.
Proof.
  revert m. induction n as [|n IH]; intros m; simpl.
  - by rewrite Nat.add_0_r.
  - destruct m as [|m]; simpl.
    + apply (IH 1).
    + change (".." :: ".." :: replicate m "..") with (replicate (S (S m)) "..").
      rewrite IH. by replace (m + S n) with (S (m + n)) by lia.
Qed.

Lemma rev_replicate {A} n (x : A) : rev (replicate n x) = replicate n x.
Proof.
  induction n as [|n IH]; simpl; [done|]. rewrite IH.
  by rewrite <- replicate_S_end.
Qed.

Lemma clean_go_id r l : normal r l -> clean_go r [] l = l.
Proof.
  intros (Hf & n & rest & -> & Hrest & Hr).
  assert (Hplain : Forall plain_seg rest).
  { apply Forall_forall. intros x Hx.
    rewrite Forall_app in Hf. destruct Hf as [_ Hf].
    rewrite Forall_forall in Hf, Hrest.
    destruct (Hf x Hx) as (? & ? & ?). repeat split; auto. }
  destruct r.
  - rewrite Hr by done. simpl. by rewrite clean_go_plain.
  - pose proof (clean_go_dotdot n 0 rest) as E. simpl in E. rewrite E.
    rewrite clean_go_plain by done. by rewrite rev_replicate.
Qed.

Lemma normal_nil r : normal r [].
Proof. split; [constructor|]. exists 0, []. repeat split; constructor. Qed.

Lemma normal_snoc r l x :
  normal r l -> split_slash x = [x] -> x <> "" -> x <> "." -> x <> ".." ->
  normal r (l ++ [x]).
Proof.
  intros (Hf & n & rest & -> & Hrest & Hr) Hx H1 H2 H3. split.
  - apply Forall_app. split; [done|]. by repeat constructor.
  - exists n, (rest ++ [x]). rewrite <- app_assoc. repeat split; auto.
    apply Forall_app. split; [done|]. by repeat constructor.
Qed.

Lemma clean_go_normal r stk l :
  Forall (fun x => split_slash x = [x]) l -> normal r (rev stk) ->
  normal r (clean_go r stk l).
Proof.
  revert stk. induction l as [|x l IH]; intros stk Hl Hn; simpl; [done|].
  inversion Hl as [|? ? Hx Hl']; subst.
  destruct (str_eqb x "" || str_eqb x ".") eqn:E1; [by apply IH|].
  apply orb_false_iff in E1. destruct E1 as [E1 E2].
  apply str_eqb_false in E1, E2.
  destruct (str_eqb x "..") eqn:E3.
  - apply str_eqb_true in E3. subst x.
    destruct stk as [|y stk'].
    + destruct r; apply IH; try done.
      split; [by repeat constructor|]. exists 1, [].
      split; [done|]. split; [constructor|]. done.
    + destruct Hn as (Hf & n & rest & Heq & Hrest & Hr). simpl in Heq.
      destruct rest as [|z rest'] using rev_ind.
      * rewrite app_nil_r in Heq.
        assert (Hy : y ∈ replicate n "..").
        { rewrite <- Heq. apply elem_of_app. right. by apply list_elem_of_singleton. }
        apply elem_of_replicate in Hy. destruct Hy as [-> _].
        rewrite str_eqb_refl. apply IH; [done|]. simpl. rewrite Heq.
        split.
        { apply Forall_app. split; [by rewrite <- Heq|]. by repeat constructor. }
        exists (S n), []. rewrite app_nil_r, replicate_S_end.
        split; [done|]. split; [constructor|].
        intros Hrt. specialize (Hr Hrt). subst n.
        destruct (rev stk'); simpl in Heq; discriminate.
      * rewrite app_assoc in Heq. apply app_inj_tail in Heq. destruct Heq as [Heq ->].
        apply Forall_app in Hrest. destruct Hrest as [Hrest Hz].
        inversion Hz as [|? ? Hz' _]; subst.
        apply str_eqb_false in Hz'. rewrite Hz'. apply IH; [done|].
        simpl in Hf. apply Forall_app in Hf. destruct Hf as [Hf _].
        split; [done|]. exists n, rest'. auto.
  - apply str_eqb_false in E3. apply IH; [done|]. simpl. by apply normal_snoc.
Qed.

Lemma clean_go_split_normal r p : normal r (clean_go r [] (split_slash p)).
Proof. apply clean_go_normal; [apply split_slash_elems|apply normal_nil]. Qed.

Lemma render_decode r l :
  normal r l ->
  starts_with_slash (render r l) = r /\
  clean_go r [] (split_slash (render r l)) = l.
Proof.
  intros Hn. pose proof Hn as (Hf & _).
  assert (Hf' : Forall (fun x => split_slash x = [x]) l).
  { eapply Forall_impl; [exact Hf|]. by intros ? [? _]. }
  destruct r; simpl.
  - split; [done|].
    destruct l as [|x l']; [done|].
    change (String.append EmptyString ?y) with y.
    rewrite split_join by done. by apply clean_go_id.
  - destruct l as [|x l']; [done|].
    inversion Hf as [|? ? (Hx & Hx1 & _) _]; subst.
    rewrite split_join by done. split; [|by apply clean_go_id].
    eapply starts_with_slash_hd; [apply split_join; done|done].
Qed.

Lemma clean_render r l : normal r l -> clean (render r l) = render r l.
Proof.
  intros Hn. destruct (render_decode r l Hn) as [H1 H2].
  unfold clean. by rewrite H1, H2.
Qed.

Lemma render_inj r l1 l2 :
  normal r l1 -> normal r l2 -> render r l1 = render r l2 -> l1 = l2.
Proof.
  intros H1 H2 Heq.
  destruct (render_decode r l1 H1) as [_ E1].
  destruct (render_decode r l2 H2) as [_ E2].
  by rewrite <- E1, <- E2, Heq.
Qed.

Lemma normal_app_plain r l ks :
  normal r l -> Forall plain_seg ks -> normal r (l ++ ks).
Proof.
  revert l. induction ks as [|k ks IH] using rev_ind; intros l Hn Hks.
  - by rewrite app_nil_r.
  - apply Forall_app in Hks. destruct Hks as [Hks Hk].
    inversion Hk as [|? ? (? & ? & ? & ?) _]; subst.
    rewrite app_assoc. apply normal_snoc; auto.
Qed.

Lemma clean_key_plain key :
  clean_key key = true -> Forall plain_seg (split_slash key).
Proof.
  unfold clean_key. intros H. pose proof (proj1 (forallb_forall _ _) H) as H'. clear H. rename H' into H.
  pose proof (split_slash_elems key) as He. rewrite Forall_forall in He.
  apply Forall_forall. intros x Hx. specialize (H x (proj1 (list_elem_of_In _ _) Hx)).
  specialize (He x Hx). simpl in H.
  apply negb_true_iff, orb_false_iff in H. destruct H as [H H3].
  apply orb_false_iff in H. destruct H as [H1 H2].
  apply str_eqb_false in H1, H2, H3. repeat split; auto.
Qed.

Lemma strip_common_app l ks : strip_common l (l ++ ks) = ([], ks).
Proof.
  induction l as [|x l IH]; simpl; [by destruct ks|].
  by rewrite str_eqb_refl.
Qed.

Lemma join_slash_cons_ne x l : x <> "" -> join_slash (x :: l) <> "".
Proof. destruct x; [done|]. by destruct l. Qed.

Lemma normal_split r l : normal r l -> l <> [] -> split_slash (join_slash l) = l.
Proof.
  intros [Hf _] Hne. apply split_join; [done|].
  eapply Forall_impl; [exact Hf|]. by intros ? [? _].
Qed.

Lemma normal_join_ne r l : normal r l -> l <> [] -> join_slash l <> "".
Proof.
  intros [Hf _] Hne. destruct l as [|x l]; [done|].
  inversion Hf as [|? ? (_ & Hx & _) _]; subst. by apply join_slash_cons_ne.
Qed.

Lemma rel_segs_split s : s <> "" -> s <> "/" -> rel_segs s = split_slash s.
Proof.
  intros H1 H2. unfold rel_segs.
  apply str_eqb_false in H1, H2. by rewrite H1, H2.
Qed.

Lemma trim_dot_slash_id s x l :
  split_slash s = x :: l -> x <> "." -> trim_dot_slash s = s.
Proof.
  destruct s as [|c1 [|c2 s]]; simpl; intros Hs Hx; try done.
  destruct (ascii_dec c1 "."%char) as [->|]; [|done].
  destruct (ascii_dec c2 sep) as [->|]; [|done].
  simpl in Hs. injection Hs. intros _ <-. done.
Qed.

(** [Rel] from the cleaned root to a path with more elements below it
    gives those elements. *)
Lemma rel_below root r C ks :
  clean root = render r C -> normal r C ->
  Forall plain_seg ks -> ks <> [] ->
  rel root (render r (C ++ ks)) = Some (join_slash ks).
Proof.
  intros Hroot HC Hks Hne.
  assert (HCks : normal r (C ++ ks)) by (apply normal_app_plain; done).
  assert (Hks' : normal false ks) by (rewrite <- (app_nil_l ks); apply normal_app_plain; [apply normal_nil|done]).
  assert (HksT : normal true ks) by (rewrite <- (app_nil_l ks); apply normal_app_plain; [apply normal_nil|done]).
  unfold rel. rewrite Hroot, (clean_render r (C ++ ks)) by done.
  assert (Hneq : str_eqb (render r (C ++ ks)) (render r C) = false).
  { apply str_eqb_false. intros E. apply render_inj in E; [|done|done].
    apply (f_equal length) in E. rewrite length_app in E.
    destruct ks; simpl in E; [done|lia]. }
  rewrite Hneq.
  destruct r.
  - assert (Hdot : str_eqb (render true C) "." = false) by (apply str_eqb_false; simpl; discriminate).
    rewrite Hdot. simpl.
    assert (Hsplit : forall L, normal true L -> L <> [] ->
              rel_segs ("/" +:+ join_slash L) = "" :: L).
    { intros L HL HLne. rewrite rel_segs_split.
      - simpl. change (String.append EmptyString ?y) with y.
        by rewrite (normal_split true).
      - discriminate.
      - intros E. injection E as E'.
        change (String.append EmptyString ?y) with y in E'.
        by apply (normal_join_ne true L). }
    rewrite (Hsplit (C ++ ks)) by (done || by destruct C).
    destruct C as [|c C'].
    + replace (rel_segs ("/" +:+ join_slash [])) with [""] by reflexivity.
      change ("" :: [] ++ ks) with ([""] ++ ks). by rewrite strip_common_app.
    + rewrite Hsplit by done. simpl. rewrite str_eqb_refl.
      rewrite strip_common_app. done.
  - destruct (render_decode false (C ++ ks) HCks) as [Hst _].
    assert (Hsplit : forall L, normal false L -> L <> [] ->
              rel_segs (render false L) = L).
    { intros L HL HLne.
      destruct (render_decode false L HL) as [HsL _].
      rewrite rel_segs_split.
      - destruct L; [done|]. by apply (normal_split false).
      - destruct L; [done|]. by apply (normal_join_ne false).
      - intros E. rewrite E in HsL. discriminate. }
    destruct C as [|c C'].
    + change (render false []) with ".". rewrite str_eqb_refl.
      change ([] ++ ks) with ks in *. rewrite Hst.
      replace (rel_segs "") with (@nil string) by reflexivity.
      rewrite Hsplit by done. by destruct ks.
    + assert (Hdot : str_eqb (render false (c :: C')) "." = false).
      { apply str_eqb_false. intros E.
        change "." with (render false []) in E.
        apply render_inj in E; [done|done|apply normal_nil]. }
      rewrite Hdot.
      destruct (render_decode false (c :: C') HC) as [HsC _].
      rewrite HsC, Hst. simpl negb. cbv iota beta.
      rewrite !Hsplit by done. by rewrite strip_common_app.
Qed.

End PathLemmas.

(* ================================================================== *)
(** * Key mapping (C5) *)
(* ================================================================== *)

(** C5 (as stated: fails).  A key made of forward slashes only does not
    always survive the round trip: [filepath.Join] cleans ["a//b"] to
    ["a/b"], and that is the key the upload uses. *)
Lemma key_roundtrip_double_slash :
  toObjectKey "stage" (toLocalPath "stage" "a//b") = "a/b" /\
  toObjectKey "stage" (toLocalPath "stage" "a//b") <> "a//b".
Proof. split; [reflexivity|]. vm_compute. discriminate. Qed.

(** C5 (amended).  For every staging root and every key whose
    ['/']-separated elements are non-empty and none is ["."] or [".."],
    mapping the key to its staging path ([filepath.Join]) and the path back
    to an upload key ([filepath.Rel], [ToSlash], [TrimPrefix "./"]) yields
    the key unchanged. *)
Theorem toObjectKey_toLocalPath (root key : string) :
  clean_key key = true -> toObjectKey root (toLocalPath root key) = key.
Proof.
  intros Hk. pose proof (clean_key_plain key Hk) as Hks.
  destruct (split_slash key) as [|k0 ks'] eqn:Eks;
    [by destruct (split_slash_not_nil key)|].
  assert (Hkey : join_slash (k0 :: ks') = key) by (rewrite <- Eks; apply join_split).
  assert (Hp0 : plain_seg k0) by (inversion Hks; done).
  destruct Hp0 as (_ & Hk0 & Hk0' & _).
  assert (Hcase : exists r C, clean root = render r C /\ normal r C /\
                    toLocalPath root key = render r (C ++ k0 :: ks')).
  { destruct (str_eqb root "") eqn:Er.
    - apply str_eqb_true in Er. subst root.
      exists false, []. split; [reflexivity|]. split; [apply normal_nil|].
      assert (Hne : str_eqb key "" = false).
      { apply str_eqb_false. intros ->. simpl in Eks. injection Eks. intros _ E. by subst. }
      unfold toLocalPath, join. rewrite str_eqb_refl, Hne. unfold clean.
      rewrite (starts_with_slash_hd key k0 ks') by done.
      rewrite Eks, clean_go_plain by done. reflexivity.
    - exists (starts_with_slash root), (clean_go (starts_with_slash root) [] (split_slash root)).
      split; [reflexivity|]. split; [apply clean_go_split_normal|].
      unfold toLocalPath, join. rewrite Er. apply str_eqb_false in Er. unfold clean.
      rewrite starts_with_slash_app by done.
      change ("/" +:+ key) with (String sep key).
      rewrite split_slash_app, Eks, clean_go_app, (clean_go_plain _ _ (k0 :: ks')) by done.
      by rewrite rev_involutive. }
  destruct Hcase as (r & C & H1 & H2 & H3).
  unfold toObjectKey. rewrite H3, (rel_below root r C) by done.
  simpl. unfold to_slash. rewrite Hkey.
  eapply trim_dot_slash_id; [exact Eks|done].
Qed.

Lemma toObjectKey_toLocalPath_witness :
  clean_key "dir/c.txt" = true /\
  toObjectKey "/tmp/stage" (toLocalPath "/tmp/stage" "dir/c.txt") = "dir/c.txt".
Proof. split; [reflexivity|]. apply toObjectKey_toLocalPath. reflexivity. Defined.

(* ================================================================== *)
(** * Lemmas on the download phase *)
(* ================================================================== *)

Section DownloadLemmas.

Variable w : World.
Variable localPath : string.

Lemma mkdir_all_None p s : mkdir_ok w p = false -> mkdir_all w p s = None.
Proof.
  unfold mkdir_ok, mkdir_all. intros H.
  destruct (str_eqb p ""); [done|]. destruct (w_mkdir_fails w p); done.
Qed.

Lemma mkdir_all_Some p s s' :
  mkdir_all w p s = Some s' ->
  mkdir_ok w p = true /\ st_files s' = st_files s /\ st_log s' = st_log s /\
  st_dirs s ⊆ st_dirs s' /\ clean p ∈ st_dirs s'.
Proof.
  unfold mkdir_ok, mkdir_all. intros H.
  destruct (str_eqb p ""); [done|]. destruct (w_mkdir_fails w p); [done|].
  destruct (path_elems p). injection H as <-. simpl.
  repeat split; [set_solver|set_solver].
Qed.

Lemma mkdir_all_ok p s :
  mkdir_ok w p = true -> exists s', mkdir_all w p s = Some s'.
Proof.
  unfold mkdir_ok, mkdir_all. intros H.
  destruct (str_eqb p ""); [done|]. destruct (w_mkdir_fails w p); [done|].
  destruct (path_elems p). eauto.
Qed.

Lemma staged_file_pos o d : staged_file w localPath o = Some d -> (0 < Size o)%Z.
Proof.
  unfold staged_file. intros H.
  destruct (mkdir_ok w (dir (join localPath (Key o)))); [|done].
  destruct (w_get w (Key o)); [|done].
  destruct (Z.ltb 0 (Size o)) eqn:E; [by apply Z.ltb_lt|done].
Qed.

(** One iteration writes the staged file of its object and nothing else. *)
Lemma download_object_files o defers s :
  st_files (download_object w localPath o defers s).2 =
  match staged_file w localPath o with
  | Some d => <[join localPath (Key o) := d]> (st_files s)
  | None => st_files s
  end.
Proof.
  unfold download_object, staged_file.
  destruct (mkdir_ok w (dir (join localPath (Key o)))) eqn:Hm.
  - destruct (mkdir_all_ok _ s Hm) as [s1 Hs1]. rewrite Hs1.
    destruct (mkdir_all_Some _ _ _ Hs1) as (_ & Hf & _).
    destruct (w_get w (Key o)) as [body|]; simpl; [|done].
    destruct (Z.ltb 0 (Size o)); simpl; [|done].
    destruct (w_create_fails w (join localPath (Key o))); simpl; [done|].
    destruct (w_copy_fails w (Key o)); simpl; by rewrite insert_insert_eq, Hf.
  - by rewrite mkdir_all_None.
Qed.

(** The [GetObject] requests of one iteration. *)
Lemma download_object_gets o defers s :
  gets (st_log (download_object w localPath o defers s).2) =
  gets (st_log s) ++
  (if mkdir_ok w (dir (join localPath (Key o))) then [Key o] else []).
Proof.
  unfold download_object, gets.
  destruct (mkdir_ok w (dir (join localPath (Key o)))) eqn:Hm.
  - destruct (mkdir_all_ok _ s Hm) as [s1 Hs1]. rewrite Hs1.
    destruct (mkdir_all_Some _ _ _ Hs1) as (_ & _ & Hl & _).
    destruct (w_get w (Key o)) as [body|];
      [destruct (Z.ltb 0 (Size o));
       [destruct (w_create_fails w (join localPath (Key o)));
        [|destruct (w_copy_fails w (Key o))]|]|];
      simpl; rewrite ?omap_app, Hl; simpl; by rewrite ?omap_app, <- ?app_assoc.
  - rewrite mkdir_all_None by done. simpl. rewrite omap_app. simpl. by rewrite app_nil_r.
Qed.

Lemma find_path_None (objects : list Object) p :
  p ∉ map (fun o => join localPath (Key o)) objects ->
  find (fun o => str_eqb (join localPath (Key o)) p) objects = None.
Proof.
  induction objects as [|o objects IH]; simpl; intros Hp; [done|].
  apply not_elem_of_cons in Hp. destruct Hp as [Hp1 Hp2].
  assert (E : str_eqb (join localPath (Key o)) p = false) by (apply str_eqb_false; auto).
  rewrite E. by apply IH.
Qed.

(** The staging tree after the loop over objects with distinct paths. *)
Lemma download_loop_staging objects defers s :
  NoDup (map (fun o => join localPath (Key o)) objects) ->
  forall p, st_files (download_loop w localPath objects defers s).2 !! p =
            staging_after w localPath objects (st_files s) p.
Proof.
  revert defers s. induction objects as [|o objects IH]; intros defers s Hnd p.
  - reflexivity.
  - simpl in Hnd. apply NoDup_cons in Hnd. destruct Hnd as [Hnin Hnd].
    simpl. destruct (download_object w localPath o defers s) as [defers1 s1] eqn:E1.
    rewrite IH by done. unfold staging_after. simpl.
    assert (Hf1 := download_object_files o defers s). rewrite E1 in Hf1. simpl in Hf1.
    destruct (str_eqb (join localPath (Key o)) p) eqn:Ep.
    + apply str_eqb_true in Ep. subst p.
      rewrite find_path_None by done. rewrite Hf1.
      destruct (staged_file w localPath o); [apply lookup_insert_eq|done].
    + apply str_eqb_false in Ep.
      assert (Hq : st_files s1 !! p = st_files s !! p).
      { rewrite Hf1. destruct (staged_file w localPath o); [by apply lookup_insert_ne|done]. }
      destruct (find _ objects) as [o'|]; [|done].
      destruct (staged_file w localPath o'); [done|]. done.
Qed.

(** Every file present after the loop was there before or is the staged
    file of an object of positive size. *)
Lemma download_loop_origin objects defers s p d :
  st_files (download_loop w localPath objects defers s).2 !! p = Some d ->
  st_files s !! p = Some d \/
  exists o, In o objects /\ (0 < Size o)%Z /\ p = join localPath (Key o).
Proof.
  revert defers s. induction objects as [|o objects IH]; intros defers s; simpl; [by left|].
  destruct (download_object w localPath o defers s) as [defers1 s1] eqn:E1.
  intros H. destruct (IH _ _ H) as [H1|(o' & Ho' & Hpos & ->)].
  - assert (Hf1 := download_object_files o defers s). rewrite E1 in Hf1. simpl in Hf1.
    rewrite Hf1 in H1. destruct (staged_file w localPath o) as [d'|] eqn:Hs; [|by left].
    destruct (decide (join localPath (Key o) = p)) as [<-|Hne].
    + right. exists o. split; [by left|]. split; [by eapply staged_file_pos|done].
    + left. by rewrite lookup_insert_ne in H1.
  - right. exists o'. auto.
Qed.

Lemma download_loop_gets objects defers s :
  gets (st_log (download_loop w localPath objects defers s).2) =
  gets (st_log s) ++
  map Key (filter (fun o => mkdir_ok w (dir (join localPath (Key o))) = true) objects).
Proof.
  revert defers s. induction objects as [|o objects IH]; intros defers s; simpl.
  - by rewrite app_nil_r.
  - destruct (download_object w localPath o defers s) as [defers1 s1] eqn:E1.
    rewrite IH. assert (Hg := download_object_gets o defers s). rewrite E1 in Hg.
    simpl in Hg. rewrite Hg, <- app_assoc. f_equal.
    rewrite filter_cons. by destruct (mkdir_ok w (dir (join localPath (Key o)))).
Qed.

Lemma run_defers_files defers s : st_files (run_defers defers s) = st_files s.
Proof.
  unfold run_defers. revert s. induction defers as [|p defers IH]; intros s; simpl; [done|].
  by rewrite IH.
Qed.

Lemma run_defers_gets defers s :
  gets (st_log (run_defers defers s)) = gets (st_log s).
Proof.
  unfold run_defers. revert s. induction defers as [|p defers IH]; intros s; simpl; [done|].
  rewrite IH. unfold gets. simpl. rewrite omap_app. simpl. by rewrite app_nil_r.
Qed.

Ltac lists_simpl Hl :=
  unfold lists; simpl; rewrite ?omap_app; simpl; rewrite ?Hl, ?app_nil_r; try reflexivity.

Lemma download_object_lists o defers s :
  lists (st_log (download_object w localPath o defers s).2) = lists (st_log s).
Proof.
  unfold download_object.
  destruct (mkdir_all w (dir (join localPath (Key o))) s) as [s1|] eqn:Em.
  2:{ unfold lists. simpl. rewrite omap_app. simpl. by rewrite app_nil_r. }
  destruct (mkdir_all_Some _ _ _ Em) as (_ & _ & Hl & _).
  destruct (w_get w (Key o)); [|lists_simpl Hl].
  destruct (Z.ltb 0 (Size o)); [|lists_simpl Hl].
  destruct (w_create_fails w (join localPath (Key o))); [lists_simpl Hl|].
  destruct (w_copy_fails w (Key o)); lists_simpl Hl.
Qed.

Lemma download_loop_lists objects defers s :
  lists (st_log (download_loop w localPath objects defers s).2) = lists (st_log s).
Proof.
  revert defers s. induction objects as [|o objects IH]; intros defers s; [done|].
  simpl. pose proof (download_object_lists o defers s) as H.
  destruct (download_object w localPath o defers s) as [d1 s1]. simpl in H.
  by rewrite IH.
Qed.

Lemma run_defers_lists defers s :
  lists (st_log (run_defers defers s)) = lists (st_log s).
Proof.
  unfold run_defers. revert s. induction defers as [|p defers IH]; intros s; simpl; [done|].
  rewrite IH. unfold lists. simpl. rewrite omap_app. simpl. by rewrite app_nil_r.
Qed.

End DownloadLemmas.

(** The scenario of the specification runs as it describes. *)
Example sample_run :
  let '(code, s) := main sample_world empty_st in
  code = 0%Z /\
  puts (st_log s) = [("a.txt", "hello"); ("dir/c.txt", "abc")] /\
  st_files s = ∅ /\ ("stage" ∉ st_dirs s) /\
  last (st_log s) =
    Some (EvPrint "Download and upload complete. Deleted local files and directory.").
Proof. vm_compute. repeat split; try reflexivity. set_solver. Qed.

(* ================================================================== *)
(** * Download phase (C1, C2, C3, C8, C9) *)
(* ================================================================== *)

(** C1 (as stated: fails).  A bucket of 1001 objects: the download phase
    fetches 1000 keys, and the object [k1000] is never fetched. *)
Lemma listing_first_page_only :
  let s := (downloadFiles big_world "AK" "SK" "http://source:9000" "src-bucket"
              "stage" "us-east-1" empty_st).2 in
  length big_bucket = 1001 /\
  existsb (fun o => str_eqb (Key o) "k1000") big_bucket = true /\
  length (gets (st_log s)) = 1000 /\
  existsb (str_eqb "k1000") (gets (st_log s)) = false.
Proof. vm_compute. repeat split. Qed.

(** C1 (amended).  Once the client session is created, the download
    phase issues exactly one listing request and processes the objects of
    its first result page only: when the listing succeeds, the keys
    fetched are, in listing order, the keys among the first [maxKeys]
    (1000) objects of the bucket whose subdirectory creation succeeds, and
    every file it leaves that was not there before is at the staging path
    of one of those first [maxKeys] objects. *)
Theorem downloadFiles_fetches_first_page (w : World)
    (accessKey secretKey endpoint bucket localPath region : string) (s : St) :
  w_session_fails w endpoint region = false ->
  lists (st_log (downloadFiles w accessKey secretKey endpoint bucket localPath region s).2) =
  lists (st_log s) ++ [bucket] /\
  (w_list_fails w = false ->
   gets (st_log (downloadFiles w accessKey secretKey endpoint bucket localPath region s).2) =
   gets (st_log s) ++
   map Key (filter (fun o => mkdir_ok w (dir (join localPath (Key o))) = true)
                   (firstn maxKeys (w_bucket w))) /\
   (forall p d,
    st_files (downloadFiles w accessKey secretKey endpoint bucket localPath region s).2 !! p
      = Some d ->
    st_files s !! p = Some d \/
    exists o, In o (firstn maxKeys (w_bucket w)) /\ (0 < Size o)%Z /\
              p = join localPath (Key o))).
Proof.
  intros Hs. unfold downloadFiles. rewrite Hs. split.
  - destruct (w_list_fails w).
    + unfold lists. simpl. by rewrite omap_app.
    + destruct (download_loop w localPath (listObjectsContents w) [] (log (EvList bucket) s))
        as [defers s1] eqn:E.
      simpl. rewrite run_defers_lists.
      assert (Hg := download_loop_lists w localPath (listObjectsContents w) []
                      (log (EvList bucket) s)).
      rewrite E in Hg. simpl in Hg. rewrite Hg. unfold lists. simpl. by rewrite omap_app.
  - intros Hl. rewrite Hl.
    destruct (download_loop w localPath (listObjectsContents w) [] (log (EvList bucket) s))
      as [defers s1] eqn:E.
    split.
    + simpl. rewrite run_defers_gets.
      assert (Hg := download_loop_gets w localPath (listObjectsContents w) []
                      (log (EvList bucket) s)).
      rewrite E in Hg. simpl in Hg. rewrite Hg.
      unfold gets. simpl. rewrite omap_app. simpl. by rewrite app_nil_r.
    + intros p d. simpl. rewrite run_defers_files. intros Hp.
      assert (Ho := download_loop_origin w localPath (listObjectsContents w) []
                      (log (EvList bucket) s) p d).
      rewrite E in Ho. exact (Ho Hp).
Qed.

Lemma downloadFiles_fetches_first_page_witness :
  w_session_fails sample_world "http://source:9000" "us-east-1" = false /\
  lists (st_log (downloadFiles sample_world "AK" "SK" "http://source:9000" "src-bucket"
                   "stage" "us-east-1" empty_st).2) =
  lists (st_log empty_st) ++ ["src-bucket"].
Proof.
  split; [reflexivity|].
  apply (downloadFiles_fetches_first_page sample_world "AK" "SK" "http://source:9000"
           "src-bucket" "stage" "us-east-1" empty_st). reflexivity.
Defined.

(** C2 (as stated: fails).  Copying [a.txt] fails after 2 bytes, yet the
    staging tree keeps [stage/a.txt] with those 2 bytes. *)
Lemma partial_file_stays_staged :
  let s := (downloadFiles copy_fail_world "AK" "SK" "http://source:9000" "src-bucket"
              "stage" "us-east-1" empty_st).2 in
  w_copy_fails copy_fail_world "a.txt" = Some 2 /\
  st_files s !! "stage/a.txt" = Some "he".
Proof. vm_compute. split; reflexivity. Qed.

(** The staging tree after [downloadFiles], as given by the outcomes of
    each listed object. *)
Lemma downloadFiles_files (w : World)
    (accessKey secretKey endpoint bucket localPath region : string) (s : St) :
  w_session_fails w endpoint region = false ->
  w_list_fails w = false ->
  NoDup (map (fun o => join localPath (Key o)) (listObjectsContents w)) ->
  forall p,
  st_files (downloadFiles w accessKey secretKey endpoint bucket localPath region s).2 !! p =
  staging_after w localPath (listObjectsContents w) (st_files s) p.
Proof.
  intros Hs Hl Hnd p. unfold downloadFiles. rewrite Hs, Hl.
  destruct (download_loop w localPath (listObjectsContents w) [] (log (EvList bucket) s))
    as [defers s1] eqn:E.
  simpl. rewrite run_defers_files.
  assert (Hf := download_loop_staging w localPath (listObjectsContents w) []
                  (log (EvList bucket) s) Hnd p).
  rewrite E in Hf. exact Hf.
Qed.

(** C2 (amended).  When the session is created and the listing succeeds,
    the listed objects have
    distinct staging paths and the staging tree holds no file beforehand,
    then after the download phase a path of the staging tree holds a file
    exactly when it is the staging path of a listed object whose size is
    positive and whose subdirectory creation, fetch and [os.Create]
    succeeded; the file holds the whole object when the copy succeeded and
    the bytes written before the error when it failed. *)
Theorem download_staging_tree (w : World)
    (accessKey secretKey endpoint bucket localPath region : string) (s : St) :
  w_session_fails w endpoint region = false ->
  w_list_fails w = false ->
  NoDup (map (fun o => join localPath (Key o)) (listObjectsContents w)) ->
  (forall p, under localPath p = true -> st_files s !! p = None) ->
  forall p, under localPath p = true ->
  st_files (downloadFiles w accessKey secretKey endpoint bucket localPath region s).2 !! p =
  match find (fun o => str_eqb (join localPath (Key o)) p) (listObjectsContents w) with
  | Some o => staged_file w localPath o
  | None => None
  end.
Proof.
  intros Hs Hl Hnd Hempty p Hp.
  rewrite (downloadFiles_files w accessKey secretKey endpoint bucket localPath region s
             Hs Hl Hnd p).
  unfold staging_after. rewrite (Hempty p Hp).
  destruct (find _ _) as [o|]; [|done]. by destruct (staged_file w localPath o).
Qed.

Lemma download_staging_tree_witness :
  w_session_fails copy_fail_world "http://source:9000" "us-east-1" = false /\
  w_list_fails copy_fail_world = false /\
  NoDup (map (fun o => join "stage" (Key o)) (listObjectsContents copy_fail_world)) /\
  (forall p, under "stage" p = true -> st_files empty_st !! p = None) /\
  st_files (downloadFiles copy_fail_world "AK" "SK" "http://source:9000" "src-bucket"
              "stage" "us-east-1" empty_st).2 !! "stage/dir/c.txt" =
  match find (fun o => str_eqb (join "stage" (Key o)) "stage/dir/c.txt")
          (listObjectsContents copy_fail_world) with
  | Some o => staged_file copy_fail_world "stage" o
  | None => None
  end.
Proof.
  assert (Hnd : NoDup (map (fun o => join "stage" (Key o)) (listObjectsContents copy_fail_world))).
  { vm_compute. repeat constructor; set_solver. }
  assert (He : forall p, under "stage" p = true -> st_files empty_st !! p = None).
  { intros p _. reflexivity. }
  split; [reflexivity|]. split; [reflexivity|]. split; [exact Hnd|]. split; [exact He|].
  apply download_staging_tree; [reflexivity|reflexivity|exact Hnd|exact He|reflexivity].
Defined.




(** C8 (code bug).  [defer localFile.Close()] inside the loop postpones
    every close to the return of [downloadFiles]: with the two non-empty
    objects of the sample bucket, both local files are open at once, and
    the two closes come after the loop. *)
Lemma download_handles_held_until_return :
  let s := (downloadFiles sample_world "AK" "SK" "http://source:9000" "src-bucket"
              "stage" "us-east-1" empty_st).2 in
  peak_open (st_log s) 0 0 = 2 /\
  st_log s =
    [EvList "src-bucket"; EvGet "a.txt"; EvCreate "stage/a.txt";
     EvPrint "Downloaded file: a.txt"; EvGet "dir/b.txt"; EvGet "dir/c.txt";
     EvCreate "stage/dir/c.txt"; EvPrint "Downloaded file: dir/c.txt";
     EvClose "stage/dir/c.txt"; EvClose "stage/a.txt"].
Proof. vm_compute. split; reflexivity. Qed.




(* ================================================================== *)
(** * Lemmas on the upload phase and on [main] *)
(* ================================================================== *)

Section UploadLemmas.

Variable w : World.
Variables bucket directory : string.

Lemma puts_snoc l e : puts (l ++ [e]) = puts l ++ puts [e].
Proof. unfold puts. by rewrite omap_app. Qed.

Lemma walk_fn_ok it s :
  res_ok (walk_fn w bucket directory it s).1 = negb (visit_fails w directory it).
Proof.
  destruct it as [p d|p|e]; [|done|done]. unfold walk_fn, upload_visit, visit_fails.
  destruct (w_open_fails w p); [done|]. simpl.
  destruct (Nat.ltb 0 (String.length d)); simpl; [|done].
  by destruct (w_put_fails w (toObjectKey directory p)).
Qed.

(** A call sends at most the file it visits, under its upload key. *)
Lemma walk_fn_puts it s :
  exists extra, puts (st_log (walk_fn w bucket directory it s).2) = puts (st_log s) ++ extra /\
  length extra <= 1 /\
  (forall k d, In (k, d) extra ->
     exists p, it = WFile p d /\ k = toObjectKey directory p /\ 0 < String.length d).
Proof.
  destruct it as [p d|p|e]; simpl.
  2,3: exists []; rewrite app_nil_r; split; [done|]; split; [simpl; lia|]; intros ? ? [].
  destruct (w_open_fails w p); simpl.
  { exists []. rewrite app_nil_r. split; [done|]. split; [simpl; lia|]. intros ? ? []. }
  destruct (Nat.ltb 0 (String.length d)) eqn:Hd.
  - exists [(toObjectKey directory p, d)].
    split.
    { destruct (w_put_fails w (toObjectKey directory p)); simpl;
        rewrite !puts_snoc; simpl; rewrite ?app_nil_r, <-?app_assoc; done. }
    split; [simpl; lia|]. intros k d' [Hk|[]]. injection Hk as <- <-.
    exists p. repeat split. by apply Nat.ltb_lt.
  - exists []. simpl. rewrite !puts_snoc. simpl. rewrite !app_nil_r.
    split; [done|]. split; [simpl; lia|]. intros ? ? [].
Qed.

Lemma upload_walk_cons it items s :
  upload_walk w bucket directory (it :: items) s =
  match walk_fn w bucket directory it s with
  | (Ok, s1) => upload_walk w bucket directory items s1
  | (r, s1) => (r, s1)
  end.
Proof. reflexivity. Qed.

(** [filepath.Walk] stops at the first call that fails: the phase
    behaves as if the calls after it did not exist, and fails. *)
Lemma upload_walk_stops items j it s :
  nth_error items j = Some it -> visit_fails w directory it = true ->
  upload_walk w bucket directory items s =
  upload_walk w bucket directory (firstn (S j) items) s /\
  res_ok (upload_walk w bucket directory items s).1 = false.
Proof.
  revert j s. induction items as [|it0 items IH]; intros j s Hj Hf; [by destruct j|].
  assert (Hok := walk_fn_ok it0 s).
  destruct j as [|j]; simpl in Hj.
  - injection Hj as ->. rewrite Hf in Hok. simpl firstn. rewrite !upload_walk_cons.
    destruct (walk_fn w bucket directory it s) as [[|e|] s1]; simpl in Hok;
      [discriminate|done|done].
  - simpl firstn. rewrite !upload_walk_cons.
    destruct (walk_fn w bucket directory it0 s) as [[|e|] s1]; [|done|done].
    apply IH; done.
Qed.

Lemma upload_walk_puts items s :
  exists extra,
  puts (st_log (upload_walk w bucket directory items s).2) = puts (st_log s) ++ extra /\
  length extra <= length items /\
  (forall k d, In (k, d) extra ->
     exists p, In (WFile p d) items /\ k = toObjectKey directory p /\ 0 < String.length d).
Proof.
  revert s. induction items as [|it items IH]; intros s; simpl.
  { exists []. rewrite app_nil_r. split; [done|]. split; [simpl; lia|]. intros ? ? []. }
  destruct (walk_fn_puts it s) as (e1 & H1 & Hl1 & Hi1).
  destruct (walk_fn w bucket directory it s) as [[|e|] s1] eqn:E; simpl in *.
  - destruct (IH s1) as (e2 & H2 & Hl2 & Hi2). exists (e1 ++ e2).
    rewrite H2, H1, app_assoc. split; [done|]. split; [rewrite length_app; lia|].
    intros k d Hin. apply in_app_or in Hin. destruct Hin as [Hin|Hin].
    + destruct (Hi1 k d Hin) as (p & -> & Hk & Hd). exists p. auto.
    + destruct (Hi2 k d Hin) as (p & Hp & Hk & Hd). exists p. auto.
  - exists e1. split; [done|]. split; [lia|].
    intros k d Hin. destruct (Hi1 k d Hin) as (p & -> & Hk & Hd). exists p. auto.
  - exists e1. split; [done|]. split; [lia|].
    intros k d Hin. destruct (Hi1 k d Hin) as (p & -> & Hk & Hd). exists p. auto.
Qed.

End UploadLemmas.

Lemma insert_sorted_perm p l : insert_sorted p l ≡ₚ p :: l.
Proof.
  induction l as [|q l IH]; simpl; [done|].
  destruct (walk_leb p q); [done|]. rewrite IH. apply Permutation_swap.
Qed.

Lemma sort_walk_perm l : sort_walk l ≡ₚ l.
Proof.
  induction l as [|p l IH]; simpl; [done|]. rewrite insert_sorted_perm. by rewrite IH.
Qed.

Lemma is_prefix_refl l : is_prefix l l = true.
Proof. induction l as [|x l IH]; simpl; [done|]. by rewrite str_eqb_refl, IH. Qed.

Lemma under_refl p : under p p = true.
Proof.
  unfold under. destruct (path_elems p) as [r e].
  by rewrite eqb_reflx, is_prefix_refl, drop_all.
Qed.

Lemma clean_idem p : clean (clean p) = clean p.
Proof.
  unfold clean at 2 3.
  apply clean_render, clean_go_split_normal.
Qed.

Lemma toObjectKey_clean directory p :
  toObjectKey directory (clean p) = toObjectKey directory p.
Proof. unfold toObjectKey, rel. by rewrite clean_idem. Qed.

Lemma path_elems_clean p : path_elems (clean p) = path_elems p.
Proof.
  unfold clean, path_elems.
  set (r := starts_with_slash p). set (l := clean_go r [] (split_slash p)).
  destruct (render_decode r l (clean_go_split_normal r p)) as [-> ->]. done.
Qed.

Lemma under_clean p : under p (clean p) = true.
Proof.
  unfold under. rewrite path_elems_clean. destruct (path_elems p) as [r e].
  by rewrite eqb_reflx, is_prefix_refl, drop_all.
Qed.

(** Every regular file the walk visits is a file strictly below the root,
    with its contents, or the root itself when it is a regular file. *)
Lemma walk_visits_files w s directory p d :
  In (WFile p d) (walk_visits w s directory) ->
  (st_files s !! p = Some d /\ under directory p = true) \/
  (p = directory /\ st_files s !! clean directory = Some d).
Proof.
  unfold walk_visits. intros Hin.
  destruct (str_eqb directory "" || w_lstat_fails w directory).
  { destruct Hin as [Hin|[]]. discriminate. }
  case_bool_decide.
  - destruct Hin as [Hin|Hin].
    { by destruct (w_readdir_fails w directory). }
    apply in_map_iff in Hin as (q & Hq & Hin).
    unfold walk_entry in Hq.
    destruct (w_lstat_fails w q); [discriminate|].
    case_bool_decide; [by destruct (w_readdir_fails w q)|].
    destruct (st_files s !! q) as [d'|] eqn:E; [|discriminate].
    injection Hq as <- <-. left. split; [done|].
    unfold walk_entries in Hin. apply (Permutation_in _ (sort_walk_perm _)) in Hin.
    apply filter_In in Hin as [_ Hu]. unfold strictly_under in Hu.
    apply andb_prop in Hu as [Hu _]. done.
  - destruct (st_files s !! clean directory) eqn:E.
    + destruct Hin as [Hin|[]]. injection Hin as <- <-. by right.
    + destruct Hin as [Hin|[]]. discriminate.
Qed.

Ltac puts_simpl :=
  simpl; rewrite ?puts_snoc; simpl; rewrite ?app_nil_r.

Lemma download_object_puts w localPath o defers s :
  puts (st_log (download_object w localPath o defers s).2) = puts (st_log s).
Proof.
  unfold download_object.
  destruct (mkdir_all w (dir (join localPath (Key o))) s) as [s1|] eqn:Em;
    [|by puts_simpl].
  destruct (mkdir_all_Some w _ _ _ Em) as (_ & _ & Hl & _).
  destruct (w_get w (Key o)); [|puts_simpl; by rewrite Hl].
  destruct (Z.ltb 0 (Size o)); [|puts_simpl; by rewrite Hl].
  destruct (w_create_fails w (join localPath (Key o))); [puts_simpl; by rewrite Hl|].
  destruct (w_copy_fails w (Key o)); puts_simpl; by rewrite Hl.
Qed.

Lemma download_loop_puts w localPath objects defers s :
  puts (st_log (download_loop w localPath objects defers s).2) = puts (st_log s).
Proof.
  revert defers s. induction objects as [|o objects IH]; intros defers s; [done|].
  simpl. pose proof (download_object_puts w localPath o defers s) as H.
  destruct (download_object w localPath o defers s) as [d1 s1]. simpl in H.
  by rewrite IH.
Qed.

Lemma run_defers_puts defers s : puts (st_log (run_defers defers s)) = puts (st_log s).
Proof.
  unfold run_defers. revert s. induction defers as [|p defers IH]; intros s; [done|].
  simpl. rewrite IH. by puts_simpl.
Qed.

Lemma downloadFiles_puts w accessKey secretKey endpoint bucket localPath region s :
  puts (st_log (downloadFiles w accessKey secretKey endpoint bucket localPath region s).2) =
  puts (st_log s).
Proof.
  unfold downloadFiles. destruct (w_session_fails w endpoint region); [done|].
  destruct (w_list_fails w); [by puts_simpl|].
  pose proof (download_loop_puts w localPath (listObjectsContents w) [] (log (EvList bucket) s)) as H.
  destruct (download_loop _ _ _ _ _) as [d s1]. simpl in *.
  rewrite run_defers_puts, H. by puts_simpl.
Qed.

(** Every file the download phase leaves was there before or is the
    staging path of a listed object of positive size. *)
Lemma downloadFiles_origin w accessKey secretKey endpoint bucket localPath region s p d :
  st_files (downloadFiles w accessKey secretKey endpoint bucket localPath region s).2 !! p
    = Some d ->
  st_files s !! p = Some d \/
  exists o, In o (listObjectsContents w) /\ (0 < Size o)%Z /\ p = join localPath (Key o).
Proof.
  unfold downloadFiles. destruct (w_session_fails w endpoint region); [by left|].
  destruct (w_list_fails w); simpl; [by left|].
  pose proof (download_loop_origin w localPath (listObjectsContents w) [] (log (EvList bucket) s) p d) as H.
  destruct (download_loop _ _ _ _ _) as [ds s1]. simpl in *.
  rewrite run_defers_files. exact H.
Qed.

(** Once the configuration is read, the download directory created and the
    download phase succeeded, [main] runs the upload phase. *)
Lemma main_reaches_upload w s0 config s1 s2 :
  w_config w = Some config ->
  mkdir_all w (LocalDownloadPath (Source config)) s0 = Some s1 ->
  downloadFiles w (AccessKey (Source config)) (SecretKey (Source config))
    (Endpoint (Source config)) (Bucket (Source config))
    (LocalDownloadPath (Source config)) (Region (Source config)) s1 = (Ok, s2) ->
  main w s0 = main_upload_phase w config s2.
Proof. intros Hc Hm Hd. unfold main. by rewrite Hc, Hm, Hd. Qed.

Lemma walk_fn_res w bucket directory it s :
  (walk_fn w bucket directory it s).1 = Ok \/
  exists e, (walk_fn w bucket directory it s).1 = Err e.
Proof.
  destruct it as [p d|p|e]; simpl; [|by left|by right; exists e].
  destruct (w_open_fails w p); [by right; eexists|].
  destruct (Nat.ltb 0 (String.length d)); [|by left].
  destruct (w_put_fails w (toObjectKey directory p)); [by right; eexists|by left].
Qed.

(** The walk never panics: it ends with [nil] or with an error. *)
Lemma upload_walk_res w bucket directory items s :
  (upload_walk w bucket directory items s).1 = Ok \/
  exists e, (upload_walk w bucket directory items s).1 = Err e.
Proof.
  revert s. induction items as [|it items IH]; intros s; [by left|].
  rewrite upload_walk_cons.
  destruct (walk_fn_res w bucket directory it s) as [H|[e H]];
    destruct (walk_fn w bucket directory it s) as [r s1]; simpl in H; subst r.
  - apply IH.
  - right. by exists e.
Qed.

(** Once its session is created, [uploadFiles] is the walk. *)
Lemma uploadFiles_walk w accessKey secretKey endpoint bucket directory region s :
  w_session_fails w endpoint region = false ->
  uploadFiles w accessKey secretKey endpoint bucket directory region s =
  upload_walk w bucket directory (walk_visits w s directory) s.
Proof. intros H. unfold uploadFiles. by rewrite H. Qed.

(** A failing call of the walk ends the upload phase with exit status 1,
    after the calls up to it only. *)
Lemma upload_phase_abort w config s2 j it :
  w_session_fails w (Endpoint (Destination config)) (Region (Destination config)) = false ->
  nth_error (walk_visits w s2 (LocalDownloadPath (Source config))) j = Some it ->
  visit_fails w (LocalDownloadPath (Source config)) it = true ->
  exists e s3,
  upload_walk w (Bucket (Destination config)) (LocalDownloadPath (Source config))
    (firstn (S j) (walk_visits w s2 (LocalDownloadPath (Source config)))) s2 = (Err e, s3) /\
  uploadFiles w (AccessKey (Destination config)) (SecretKey (Destination config))
    (Endpoint (Destination config)) (Bucket (Destination config))
    (LocalDownloadPath (Source config)) (Region (Destination config)) s2 = (Err e, s3) /\
  main_upload_phase w config s2 = (1%Z, say "Error uploading files:" s3).
Proof.
  intros Hs Hj Hf.
  destruct (upload_walk_stops w (Bucket (Destination config))
              (LocalDownloadPath (Source config)) _ j it s2 Hj Hf) as [Heq Hr].
  unfold main_upload_phase. rewrite (uploadFiles_walk _ _ _ _ _ _ _ _ Hs), <-Heq.
  destruct (upload_walk_res w (Bucket (Destination config))
              (LocalDownloadPath (Source config))
              (walk_visits w s2 (LocalDownloadPath (Source config))) s2) as [H|[e H]];
    destruct (upload_walk _ _ _ _ s2) as [r s3]; simpl in H, Hr; subst r; [done|].
  by exists e, s3.
Qed.

Lemma main_puts_before_upload w s0 config s1 s2 :
  mkdir_all w (LocalDownloadPath (Source config)) s0 = Some s1 ->
  downloadFiles w (AccessKey (Source config)) (SecretKey (Source config))
    (Endpoint (Source config)) (Bucket (Source config))
    (LocalDownloadPath (Source config)) (Region (Source config)) s1 = (Ok, s2) ->
  puts (st_log s2) = puts (st_log s0).
Proof.
  intros Hm Hd. destruct (mkdir_all_Some w _ _ _ Hm) as (_ & _ & Hl & _).
  pose proof (downloadFiles_puts w (AccessKey (Source config)) (SecretKey (Source config))
    (Endpoint (Source config)) (Bucket (Source config))
    (LocalDownloadPath (Source config)) (Region (Source config)) s1) as H.
  rewrite Hd in H. simpl in H. by rewrite H, Hl.
Qed.

(* ================================================================== *)
(** * The upload phase *)
(* ================================================================== *)



(** C10.  The walk function opens every regular file it visits before
    looking at its size: a visited empty file is opened and closed without
    an upload, and when opening the file of the J-th call fails, even an
    empty one, the walk stops there and [main] exits with status 1 after
    the upload error.  The size check guards only [PutObject]. *)
Theorem open_before_size_check (w : World) (s0 s1 s2 : St) (config : Config)
    (files : list walk_item) (j : nat) (p : string) :
  w_config w = Some config ->
  mkdir_all w (LocalDownloadPath (Source config)) s0 = Some s1 ->
  downloadFiles w (AccessKey (Source config)) (SecretKey (Source config))
    (Endpoint (Source config)) (Bucket (Source config))
    (LocalDownloadPath (Source config)) (Region (Source config)) s1 = (Ok, s2) ->
  w_session_fails w (Endpoint (Destination config)) (Region (Destination config)) = false ->
  walk_visits w s2 (LocalDownloadPath (Source config)) = files ->
  nth_error files j = Some (WFile p "") ->
  w_open_fails w p = true ->
  (forall bucket directory q s, w_open_fails w q = false ->
     upload_visit w bucket directory (q, "") s = (Ok, log (EvClose q) (log (EvOpen q) s))) /\
  upload_visit w (Bucket (Destination config)) (LocalDownloadPath (Source config))
    (p, "") s2 = (Err (ErrOpen p), s2) /\
  exists e s3,
  upload_walk w (Bucket (Destination config)) (LocalDownloadPath (Source config))
    (firstn (S j) files) s2 = (Err e, s3) /\
  main w s0 = (1%Z, say "Error uploading files:" s3).
Proof.
  intros Hc Hm Hd Hs Hv Hj Ho. subst files. split; [|split].
  - intros bucket directory q s Hq. unfold upload_visit. by rewrite Hq.
  - unfold upload_visit. by rewrite Ho.
  - assert (Hf : visit_fails w (LocalDownloadPath (Source config)) (WFile p "") = true)
      by (unfold visit_fails; by rewrite Ho).
    destruct (upload_phase_abort w config s2 j (WFile p "") Hs Hj Hf)
      as (e & s3 & Hw & _ & Hp).
    exists e, s3. split; [done|]. by rewrite (main_reaches_upload w s0 config s1 s2 Hc Hm Hd).
Qed.

Lemma open_before_size_check_witness :
  exists e s3, main open_fail_world empty_st = (1%Z, say "Error uploading files:" s3) /\
  upload_walk open_fail_world "dst-bucket" "stage"
    [WDir "stage"; WFile "stage/a.txt" ""]
    (downloadFiles open_fail_world "AK" "SK" "http://source:9000" "src-bucket"
       "stage" "us-east-1"
       (default empty_st (mkdir_all open_fail_world "stage" empty_st))).2 = (Err e, s3).
Proof.
  destruct (open_before_size_check open_fail_world empty_st
              (default empty_st (mkdir_all open_fail_world "stage" empty_st))
              (downloadFiles open_fail_world "AK" "SK" "http://source:9000" "src-bucket"
                 "stage" "us-east-1"
                 (default empty_st (mkdir_all open_fail_world "stage" empty_st))).2
              sample_config
              [WDir "stage"; WFile "stage/a.txt" ""; WDir "stage/dir";
               WFile "stage/dir/c.txt" "abc"] 1 "stage/a.txt")
    as (_ & _ & e & s3 & Hw & Hm);
    [vm_compute; reflexivity ..|].
  exists e, s3. split; [exact Hm|exact Hw].
Defined.

(* ================================================================== *)
(** * Empty objects and files *)
(* ================================================================== *)

Lemma creates_snoc l e : creates (l ++ [e]) = creates l ++ creates [e].
Proof. unfold creates. by rewrite omap_app. Qed.

Lemma remove_all_log w p s s' : remove_all w p s = Some s' -> st_log s' = st_log s.
Proof.
  unfold remove_all. destruct (str_eqb p ""); [by intros [= <-]|].
  destruct (ends_with_dot p); [done|]. destruct (w_remove_fails w); [done|].
  by intros [= <-].
Qed.

(** The uploads of the upload phase and of the removal that follows. *)
Lemma main_upload_phase_puts w config s :
  puts (st_log (main_upload_phase w config s).2) =
  puts (st_log (uploadFiles w (AccessKey (Destination config))
    (SecretKey (Destination config)) (Endpoint (Destination config))
    (Bucket (Destination config)) (LocalDownloadPath (Source config))
    (Region (Destination config)) s).2).
Proof.
  unfold main_upload_phase.
  destruct (uploadFiles _ _ _ _ _ _ _ s) as [[|e|] s3]; [|by puts_simpl|by puts_simpl].
  destruct (remove_all w (LocalDownloadPath (Source config)) s3) as [s4|] eqn:Er;
    [|by puts_simpl].
  puts_simpl. by rewrite (remove_all_log _ _ _ _ Er).
Qed.

(** C6.  An object of size 0 gets no local file and no [os.Create]
    during the download; the walk function sends no empty file; and so
    every upload of a run of [main] is new only if its contents are
    non-empty and it is the staging file of a listed object of positive
    size, or a file that was already below the staging root when the run
    started. *)
Theorem zero_size_never_uploaded (w : World) (s0 : St) (config : Config) :
  w_config w = Some config ->
  (forall localPath o defers s, (Size o <= 0)%Z ->
     st_files (download_object w localPath o defers s).2 = st_files s /\
     creates (st_log (download_object w localPath o defers s).2) = creates (st_log s)) /\
  (forall bucket directory f s, f.2 = "" ->
     puts (st_log (upload_visit w bucket directory f s).2) = puts (st_log s)) /\
  (forall k d, In (k, d) (puts (st_log (main w s0).2)) ->
     In (k, d) (puts (st_log s0)) \/
     (0 < String.length d /\
      ((exists p, under (LocalDownloadPath (Source config)) p = true /\
                  st_files s0 !! p = Some d /\
                  k = toObjectKey (LocalDownloadPath (Source config)) p) \/
       (exists o, In o (listObjectsContents w) /\ (0 < Size o)%Z /\
                  k = toObjectKey (LocalDownloadPath (Source config))
                        (join (LocalDownloadPath (Source config)) (Key o)))))).
Proof.
  intros Hc. split; [|split].
  - intros localPath o defers s Hs.
    assert (Hz : Z.ltb 0 (Size o) = false) by (apply Z.ltb_ge; lia).
    unfold download_object.
    destruct (mkdir_all w (dir (join localPath (Key o))) s) as [s1|] eqn:Em.
    2:{ simpl. rewrite creates_snoc. simpl. by rewrite app_nil_r. }
    destruct (mkdir_all_Some w _ _ _ Em) as (_ & Hf & Hl & _).
    destruct (w_get w (Key o)); [rewrite Hz|];
      simpl; rewrite ?creates_snoc; simpl; by rewrite ?app_nil_r, ?Hl, ?Hf.
  - intros bucket directory [p d] s Hd. simpl in Hd. subst d.
    unfold upload_visit. destruct (w_open_fails w p); [done|]. by puts_simpl.
  - intros k d Hin. set (root := LocalDownloadPath (Source config)).
    unfold main in Hin. rewrite Hc in Hin. fold root in Hin.
    destruct (mkdir_all w root s0) as [s1|] eqn:Hm.
    2:{ left. revert Hin. by puts_simpl. }
    destruct (mkdir_all_Some w _ _ _ Hm) as (_ & Hf1 & _).
    destruct (downloadFiles w (AccessKey (Source config)) (SecretKey (Source config))
                (Endpoint (Source config)) (Bucket (Source config)) root
                (Region (Source config)) s1) as [[|e|] s2] eqn:Hd.
    2,3: left; revert Hin; puts_simpl; intros Hin;
        pose proof (downloadFiles_puts w (AccessKey (Source config))
          (SecretKey (Source config)) (Endpoint (Source config)) (Bucket (Source config))
          root (Region (Source config)) s1) as H;
        rewrite Hd in H; simpl in H; rewrite H in Hin;
        destruct (mkdir_all_Some w _ _ _ Hm) as (_ & _ & Hl & _); by rewrite Hl in Hin.
    rewrite main_upload_phase_puts in Hin.
    unfold uploadFiles in Hin. fold root in Hin.
    rewrite <-(main_puts_before_upload w s0 config s1 s2 Hm Hd).
    destruct (w_session_fails w (Endpoint (Destination config)) (Region (Destination config)));
      [by left|].
    destruct (upload_walk_puts w (Bucket (Destination config)) root (walk_visits w s2 root) s2)
      as (sent & Hs & _ & Hi).
    rewrite Hs in Hin. apply in_app_or in Hin. destruct Hin as [Hin|Hin]; [by left|].
    right. destruct (Hi k d Hin) as (p & Hp & Hk & Hl). split; [done|].
    destruct (walk_visits_files w s2 root p d Hp) as [[Hf2 Hu]|[-> Hf2]].
    + destruct (downloadFiles_origin w (AccessKey (Source config)) (SecretKey (Source config))
                  (Endpoint (Source config)) (Bucket (Source config)) root
                  (Region (Source config)) s1 p d) as [H1|(o & Ho & Hz & ->)].
      * rewrite Hd. exact Hf2.
      * left. exists p. rewrite <-Hf1. auto.
      * right. exists o. auto.
    + rewrite <-toObjectKey_clean in Hk.
      destruct (downloadFiles_origin w (AccessKey (Source config)) (SecretKey (Source config))
                  (Endpoint (Source config)) (Bucket (Source config)) root
                  (Region (Source config)) s1 (clean root) d) as [H1|(o & Ho & Hz & Heq)].
      * rewrite Hd. exact Hf2.
      * left. exists (clean root). rewrite <-Hf1. split; [apply under_clean|]. auto.
      * right. exists o. rewrite <-Heq. auto.
Qed.

Lemma zero_size_never_uploaded_witness :
  ~ In ("dir/b.txt", "") (puts (st_log (main sample_world empty_st).2)).
Proof.
  intros Hin.
  destruct (zero_size_never_uploaded sample_world empty_st sample_config)
    as (_ & _ & H); [reflexivity|].
  destruct (H _ _ Hin) as [[]|[Hl _]]. simpl in Hl. lia.
Defined.

(* ================================================================== *)
(** * Exit status and cleanup *)
(* ================================================================== *)





(* ================================================================== *)
(** * Staging paths *)
(* ================================================================== *)

Lemma is_prefix_app l1 l2 : is_prefix l1 (l1 ++ l2) = true.
Proof. induction l1 as [|x l1 IH]; simpl; [done|]. by rewrite str_eqb_refl, IH. Qed.

Lemma toLocalPath_shape root key :
  clean_key key = true ->
  exists r C, path_elems root = (r, C) /\ normal r C /\
    toLocalPath root key = render r (C ++ split_slash key).
Proof.
  intros Hk. pose proof (clean_key_plain key Hk) as Hks.
  destruct (split_slash key) as [|k0 ks'] eqn:Eks;
    [by destruct (split_slash_not_nil key)|].
  assert (Hp0 : plain_seg k0) by (inversion Hks; done).
  destruct Hp0 as (_ & Hk0 & Hk0' & _).
  destruct (str_eqb root "") eqn:Er.
  - apply str_eqb_true in Er. subst root.
    exists false, []. split; [reflexivity|]. split; [apply normal_nil|].
    assert (Hne : str_eqb key "" = false).
    { apply str_eqb_false. intros ->. simpl in Eks. injection Eks. intros _ E. by subst. }
    unfold toLocalPath, join. rewrite str_eqb_refl, Hne. unfold clean.
    rewrite (starts_with_slash_hd key k0 ks') by done.
    rewrite Eks, clean_go_plain by done. reflexivity.
  - exists (starts_with_slash root), (clean_go (starts_with_slash root) [] (split_slash root)).
    split; [reflexivity|]. split; [apply clean_go_split_normal|].
    unfold toLocalPath, join. rewrite Er. apply str_eqb_false in Er. unfold clean.
    rewrite starts_with_slash_app by done.
    change ("/" +:+ key) with (String sep key).
    rewrite split_slash_app, Eks, clean_go_app, (clean_go_plain _ _ (k0 :: ks')) by done.
    by rewrite rev_involutive.
Qed.

(** The staging path of a key whose elements are all non-empty and none
    is ["."] or [".."] lies below the staging root. *)
Theorem toLocalPath_under (root key : string) :
  clean_key key = true -> under root (toLocalPath root key) = true.
Proof.
  intros Hk. destruct (toLocalPath_shape root key Hk) as (r & C & Hpe & HC & Hl).
  assert (HL : normal r (C ++ split_slash key))
    by (apply normal_app_plain; [done|by apply clean_key_plain]).
  destruct (render_decode r _ HL) as [H1 H2].
  unfold under. rewrite Hl.
  replace (path_elems (render r (C ++ split_slash key))) with (r, C ++ split_slash key)
    by (unfold path_elems; by rewrite H1, H2).
  rewrite Hpe, eqb_reflx, is_prefix_app, drop_app_length. simpl.
  pose proof (clean_key_plain key Hk) as Hks.
  destruct (split_slash key) as [|k0 ks]; [done|].
  inversion Hks as [|? ? (_ & _ & _ & Hk0) _]; subst.
  by rewrite (proj2 (str_eqb_false k0 "..") Hk0).
Qed.

Lemma toLocalPath_under_witness :
  clean_key "dir/c.txt" = true /\ under "./stage" (toLocalPath "./stage" "dir/c.txt") = true.
Proof. split; [reflexivity|]. apply toLocalPath_under. reflexivity. Defined.



(* ================================================================== *)
(** * Download: handles and frame *)
(* ================================================================== *)

Lemma download_object_log w lp o ds s :
  exists ev, st_log (download_object w lp o ds s).2 = st_log s ++ ev /\
  (download_object w lp o ds s).1 = rev (creates ev) ++ ds /\
  forallb (fun e => negb (is_close e)) ev = true.
Proof.
  unfold download_object.
  destruct (mkdir_all w (dir (join lp (Key o))) s) as [s1|] eqn:Em.
  2:{ by eexists [_]. }
  destruct (mkdir_all_Some w _ _ _ Em) as (_ & _ & Hl & _).
  destruct (w_get w (Key o)) as [body|];
    [|eexists; split; [simpl; rewrite Hl, <-!app_assoc; reflexivity|done]].
  destruct (Z.ltb 0 (Size o));
    [|eexists; split; [simpl; rewrite Hl; reflexivity|done]].
  destruct (w_create_fails w (join lp (Key o)));
    [eexists; split; [simpl; rewrite Hl, <-!app_assoc; reflexivity|done]|].
  destruct (w_copy_fails w (Key o));
    (eexists; split; [simpl; rewrite Hl, <-!app_assoc; reflexivity|done]).
Qed.

Lemma download_loop_log w lp objects ds s :
  exists ev, st_log (download_loop w lp objects ds s).2 = st_log s ++ ev /\
  (download_loop w lp objects ds s).1 = rev (creates ev) ++ ds /\
  forallb (fun e => negb (is_close e)) ev = true.
Proof.
  revert ds s. induction objects as [|o objects IH]; intros ds s.
  { exists []. simpl. by rewrite app_nil_r. }
  simpl. destruct (download_object_log w lp o ds s) as (ev1 & H1 & H2 & H3).
  destruct (download_object w lp o ds s) as [ds1 s1]. simpl in *.
  destruct (IH ds1 s1) as (ev2 & H4 & H5 & H6).
  exists (ev1 ++ ev2). rewrite H4, H1, <-app_assoc. split; [done|]. split.
  - rewrite H5, H2. unfold creates. by rewrite omap_app, rev_app_distr, <-app_assoc.
  - by rewrite forallb_app, H3, H6.
Qed.

Lemma run_defers_log ds s : st_log (run_defers ds s) = st_log s ++ map EvClose ds.
Proof.
  unfold run_defers. revert s. induction ds as [|p ds IH]; intros s; simpl.
  - by rewrite app_nil_r.
  - rewrite IH. simpl. by rewrite <-app_assoc.
Qed.

(** [downloadFiles] closes no local file during its loop: once the
    session is created, after the listing request, the events of the loop
    contain no close, and the files created by the loop are all closed
    when the function returns, the last created first.  When the session
    cannot be created, it panics before doing anything. *)
Theorem downloadFiles_close_order (w : World)
    (accessKey secretKey endpoint bucket localPath region : string) (s : St) :
  (w_session_fails w endpoint region = true ->
   downloadFiles w accessKey secretKey endpoint bucket localPath region s = (Panic, s)) /\
  (w_session_fails w endpoint region = false ->
  exists ev,
  st_log (downloadFiles w accessKey secretKey endpoint bucket localPath region s).2 =
    st_log s ++ EvList bucket :: ev ++ map EvClose (rev (creates ev)) /\
  forallb (fun e => negb (is_close e)) ev = true).
Proof.
  unfold downloadFiles. split; intros Hs; rewrite Hs; [done|].
  destruct (w_list_fails w); [by exists []|].
  destruct (download_loop_log w localPath (listObjectsContents w) []
              (log (EvList bucket) s)) as (ev & H1 & H2 & H3).
  destruct (download_loop _ _ _ _ _) as [ds s1]. simpl in *.
  exists ev. split; [|done].
  rewrite run_defers_log, H1, H2, app_nil_r, <-!app_assoc. done.
Qed.

Lemma download_loop_frame w lp objects ds s p :
  (forall o, In o objects -> (0 < Size o)%Z -> join lp (Key o) <> p) ->
  st_files (download_loop w lp objects ds s).2 !! p = st_files s !! p.
Proof.
  revert ds s. induction objects as [|o objects IH]; intros ds s Hp; [done|].
  simpl. pose proof (download_object_files w lp o ds s) as Hf.
  destruct (download_object w lp o ds s) as [ds1 s1]. simpl in *.
  rewrite IH by (intros o' Ho'; apply Hp; by right).
  rewrite Hf. destruct (staged_file w lp o) as [d|] eqn:Es; [|done].
  apply lookup_insert_ne. apply (Hp o); [by left|]. by apply (staged_file_pos w lp o d).
Qed.

Lemma download_loop_keeps w lp objects ds s p :
  is_Some (st_files s !! p) -> is_Some (st_files (download_loop w lp objects ds s).2 !! p).
Proof.
  revert ds s. induction objects as [|o objects IH]; intros ds s Hp; [done|].
  simpl. pose proof (download_object_files w lp o ds s) as Hf.
  destruct (download_object w lp o ds s) as [ds1 s1]. simpl in *.
  apply IH. rewrite Hf. destruct (staged_file w lp o) as [d|]; [|done].
  destruct (decide (join lp (Key o) = p)) as [->|Hne].
  - by rewrite lookup_insert_eq.
  - by rewrite lookup_insert_ne.
Qed.

(** [downloadFiles] removes no local file, and it changes only the files
    at the staging paths of listed objects of positive size: every other
    path keeps what it held. *)
Theorem downloadFiles_frame (w : World)
    (accessKey secretKey endpoint bucket localPath region : string) (s : St) :
  (forall p, is_Some (st_files s !! p) ->
     is_Some (st_files (downloadFiles w accessKey secretKey endpoint bucket
                          localPath region s).2 !! p)) /\
  (forall p, (forall o, In o (listObjectsContents w) -> (0 < Size o)%Z ->
                join localPath (Key o) <> p) ->
     st_files (downloadFiles w accessKey secretKey endpoint bucket localPath region s).2 !! p
     = st_files s !! p).
Proof.
  unfold downloadFiles. destruct (w_session_fails w endpoint region); [done|].
  destruct (w_list_fails w); [done|].
  split; intros p Hp.
  - pose proof (download_loop_keeps w localPath (listObjectsContents w) []
                  (log (EvList bucket) s) p Hp) as H.
    destruct (download_loop _ _ _ _ _) as [ds s1]. simpl in *. by rewrite run_defers_files.
  - pose proof (download_loop_frame w localPath (listObjectsContents w) []
                  (log (EvList bucket) s) p Hp) as H.
    destruct (download_loop _ _ _ _ _) as [ds s1]. simpl in *. by rewrite run_defers_files.
Qed.

(* ================================================================== *)
(** * Upload: handles, requests, visited files *)
(* ================================================================== *)

Lemma upload_visit_log w bucket directory p d s :
  st_log (upload_visit w bucket directory (p, d) s).2 = st_log s \/
  exists mid, (mid = [] \/ exists k d', mid = [EvPut k d']) /\
    st_log (upload_visit w bucket directory (p, d) s).2 =
    st_log s ++ EvOpen p :: mid ++ [EvClose p].
Proof.
  unfold upload_visit. destruct (w_open_fails w p); [by left|right].
  destruct (Nat.ltb 0 (String.length d)).
  - exists [EvPut (toObjectKey directory p) d]. split; [right; eauto|].
    destruct (w_put_fails w (toObjectKey directory p)); simpl; by rewrite <-!app_assoc.
  - exists []. split; [by left|]. simpl. by rewrite <-!app_assoc.
Qed.

Lemma peak_open_visit p mid rest b :
  (mid = [] \/ exists k d, mid = [EvPut k d]) ->
  peak_open ((EvOpen p :: mid ++ [EvClose p]) ++ rest) 0 b = peak_open rest 0 (Nat.max b 1).
Proof. intros [->|(k & d & ->)]; reflexivity. Qed.

Lemma walk_fn_log w bucket directory it s :
  st_log (walk_fn w bucket directory it s).2 = st_log s \/
  exists p mid, (mid = [] \/ exists k d', mid = [EvPut k d']) /\
    st_log (walk_fn w bucket directory it s).2 =
    st_log s ++ EvOpen p :: mid ++ [EvClose p].
Proof.
  destruct it as [p d|p|e]; simpl; [|by left|by left].
  destruct (upload_visit_log w bucket directory p d s) as [H|(mid & Hm & H)]; [by left|].
  right. by exists p, mid.
Qed.

Lemma upload_walk_log w bucket directory items s :
  exists ev, st_log (upload_walk w bucket directory items s).2 = st_log s ++ ev /\
  forall b, peak_open ev 0 b <= Nat.max b 1.
Proof.
  revert s. induction items as [|it items IH]; intros s.
  { exists []. split; [by rewrite app_nil_r|]. simpl. lia. }
  rewrite upload_walk_cons.
  destruct (walk_fn_log w bucket directory it s) as [Hl|(p & mid & Hm & Hl)];
    destruct (walk_fn w bucket directory it s) as [[|e|] s1]; simpl in *.
  - destruct (IH s1) as (ev & H1 & H2). exists ev. by rewrite H1, Hl.
  - exists []. split; [by rewrite app_nil_r|]. simpl. lia.
  - exists []. split; [by rewrite app_nil_r|]. simpl. lia.
  - destruct (IH s1) as (ev & H1 & H2).
    exists ((EvOpen p :: mid ++ [EvClose p]) ++ ev).
    split; [by rewrite H1, Hl, app_assoc|].
    intros b. rewrite peak_open_visit by done. specialize (H2 (Nat.max b 1)). lia.
  - exists ((EvOpen p :: mid ++ [EvClose p]) ++ []).
    split; [by rewrite Hl, app_nil_r|].
    intros b. rewrite peak_open_visit by done. simpl. lia.
  - exists ((EvOpen p :: mid ++ [EvClose p]) ++ []).
    split; [by rewrite Hl, app_nil_r|].
    intros b. rewrite peak_open_visit by done. simpl. lia.
Qed.

(** [uploadFiles] holds at most one local file open at a time: each file
    the walk function opens is closed before the next one is opened. *)
Theorem uploadFiles_one_open (w : World)
    (accessKey secretKey endpoint bucket directory region : string) (s : St) :
  exists ev,
  st_log (uploadFiles w accessKey secretKey endpoint bucket directory region s).2 =
    st_log s ++ ev /\
  peak_open ev 0 0 <= 1.
Proof.
  unfold uploadFiles. destruct (w_session_fails w endpoint region).
  - exists []. split; [by rewrite app_nil_r|]. simpl. lia.
  - destruct (upload_walk_log w bucket directory (walk_visits w s directory) s)
      as (ev & H1 & H2).
    exists ev. split; [done|]. apply (H2 0).
Qed.

Lemma upload_visit_ok_puts w bucket directory f s s1 :
  upload_visit w bucket directory f s = (Ok, s1) ->
  puts (st_log s1) = puts (st_log s) ++ expected_puts directory [WFile f.1 f.2].
Proof.
  destruct f as [p d]. unfold upload_visit, expected_puts. simpl.
  destruct (w_open_fails w p); [done|].
  destruct (Nat.ltb 0 (String.length d)).
  - destruct (w_put_fails w (toObjectKey directory p)); [done|].
    intros [= <-]. by puts_simpl.
  - intros [= <-]. by puts_simpl.
Qed.

Lemma upload_walk_ok_puts w bucket directory items s s' :
  upload_walk w bucket directory items s = (Ok, s') ->
  forallb (fun it => negb (is_err it)) items = true /\
  puts (st_log s') = puts (st_log s) ++ expected_puts directory items.
Proof.
  revert s. induction items as [|it items IH]; intros s.
  { intros [= <-]. split; [done|]. unfold expected_puts. simpl. by rewrite app_nil_r. }
  rewrite upload_walk_cons.
  destruct it as [p d|p|e]; cbn [walk_fn].
  - destruct (upload_visit w bucket directory (p, d) s) as [[|e|] s1] eqn:E; [|by intros [=]|by intros [=]].
    intros H. destruct (IH s1 H) as [Hn Hp]. split; [done|].
    rewrite Hp, (upload_visit_ok_puts _ _ _ _ _ _ E).
    unfold expected_puts. simpl.
    destruct (Nat.ltb 0 (String.length d)); simpl; by rewrite <-app_assoc.
  - intros H. destruct (IH s H) as [Hn Hp]. split; [done|]. by rewrite Hp.
  - done.
Qed.

Lemma uploadFiles_ok_puts_gen w accessKey secretKey endpoint bucket directory region s s' :
  uploadFiles w accessKey secretKey endpoint bucket directory region s = (Ok, s') ->
  forallb (fun it => negb (is_err it)) (walk_visits w s directory) = true /\
  puts (st_log s') = puts (st_log s) ++ expected_puts directory (walk_visits w s directory).
Proof.
  unfold uploadFiles. destruct (w_session_fails w endpoint region); [done|].
  apply upload_walk_ok_puts.
Qed.

(** When [uploadFiles] returns [nil], the walk met no error (no failing
    [os.Lstat] and no unreadable directory), and its [PutObject] requests
    are exactly the non-empty regular files the walk visits, in visiting
    order, each under the key [toObjectKey] gives its path. *)
Theorem uploadFiles_ok_puts (w : World)
    (accessKey secretKey endpoint bucket directory region : string) (s s' : St) :
  uploadFiles w accessKey secretKey endpoint bucket directory region s = (Ok, s') ->
  forallb (fun it => negb (is_err it)) (walk_visits w s directory) = true /\
  puts (st_log s') = puts (st_log s) ++ expected_puts directory (walk_visits w s directory).
Proof. apply uploadFiles_ok_puts_gen. Qed.

Lemma uploadFiles_ok_puts_witness :
  forallb (fun it => negb (is_err it)) (walk_visits sample_world sample_staged "stage") = true /\
  puts (st_log (uploadFiles sample_world "AK2" "SK2" "http://dest:9000" "dst-bucket"
                  "stage" "us-east-1" sample_staged).2) =
  puts (st_log sample_staged) ++ expected_puts "stage" (walk_visits sample_world sample_staged "stage").
Proof.
  apply (uploadFiles_ok_puts sample_world "AK2" "SK2" "http://dest:9000" "dst-bucket"
           "stage" "us-east-1" sample_staged).
  vm_compute. reflexivity.
Defined.

(* ================================================================== *)
(** * Phases of [main] *)
(* ================================================================== *)

Lemma download_object_dirs w lp o ds s :
  st_dirs s ⊆ st_dirs (download_object w lp o ds s).2.
Proof.
  unfold download_object.
  destruct (mkdir_all w (dir (join lp (Key o))) s) as [s1|] eqn:Em; [|done].
  destruct (mkdir_all_Some w _ _ _ Em) as (_ & _ & _ & Hd & _).
  destruct (w_get w (Key o)); [|done].
  destruct (Z.ltb 0 (Size o)); [|done].
  destruct (w_create_fails w (join lp (Key o))); [done|].
  by destruct (w_copy_fails w (Key o)).
Qed.

Lemma download_loop_dirs w lp objects ds s :
  st_dirs s ⊆ st_dirs (download_loop w lp objects ds s).2.
Proof.
  revert ds s. induction objects as [|o objects IH]; intros ds s; simpl; [done|].
  pose proof (download_object_dirs w lp o ds s) as H.
  destruct (download_object w lp o ds s) as [ds1 s1]. simpl in *.
  etrans; [exact H|apply IH].
Qed.

Lemma run_defers_dirs ds s : st_dirs (run_defers ds s) = st_dirs s.
Proof.
  unfold run_defers. revert s. induction ds as [|p ds IH]; intros s; simpl; [done|].
  by rewrite IH.
Qed.

Lemma downloadFiles_dirs w accessKey secretKey endpoint bucket localPath region s :
  st_dirs s ⊆
  st_dirs (downloadFiles w accessKey secretKey endpoint bucket localPath region s).2.
Proof.
  unfold downloadFiles. destruct (w_session_fails w endpoint region); [done|].
  destruct (w_list_fails w); [done|].
  pose proof (download_loop_dirs w localPath (listObjectsContents w) [] (log (EvList bucket) s)) as H.
  destruct (download_loop _ _ _ _ _) as [ds s1]. simpl in *. by rewrite run_defers_dirs.
Qed.

(** A run of [main] that exits with status 0 has sent exactly the
    non-empty regular files its walk of the staging root visited after
    the download phase, in walk order, each under its [toObjectKey] key. *)
Theorem main_success_puts (w : World) (s0 : St) :
  (main w s0).1 = 0%Z ->
  exists config s1 s2,
  w_config w = Some config /\
  mkdir_all w (LocalDownloadPath (Source config)) s0 = Some s1 /\
  downloadFiles w (AccessKey (Source config)) (SecretKey (Source config))
    (Endpoint (Source config)) (Bucket (Source config))
    (LocalDownloadPath (Source config)) (Region (Source config)) s1 = (Ok, s2) /\
  puts (st_log (main w s0).2) =
  puts (st_log s0) ++ expected_puts (LocalDownloadPath (Source config))
                        (walk_visits w s2 (LocalDownloadPath (Source config))).
Proof.
  unfold main. destruct (w_config w) as [config|] eqn:Hc; [|done].
  destruct (mkdir_all w (LocalDownloadPath (Source config)) s0) as [s1|] eqn:Hm; [|done].
  destruct (downloadFiles _ _ _ _ _ _ _ s1) as [[|e|] s2] eqn:Hd; [|done|done].
  intros H0. exists config, s1, s2. split; [done|]. split; [done|]. split; [done|].
  revert H0. unfold main_upload_phase.
  destruct (uploadFiles _ _ _ _ _ _ _ s2) as [[|e|] s3] eqn:Hu; [|done|done].
  destruct (remove_all w (LocalDownloadPath (Source config)) s3) as [s4|] eqn:Hr; [|done].
  intros _. puts_simpl. rewrite (remove_all_log _ _ _ _ Hr).
  rewrite (proj2 (uploadFiles_ok_puts_gen _ _ _ _ _ _ _ _ _ Hu)).
  by rewrite (main_puts_before_upload w s0 config s1 s2 Hm Hd).
Qed.

Lemma main_success_puts_witness :
  exists config s1 s2,
  w_config sample_world = Some config /\
  mkdir_all sample_world (LocalDownloadPath (Source config)) empty_st = Some s1 /\
  downloadFiles sample_world (AccessKey (Source config)) (SecretKey (Source config))
    (Endpoint (Source config)) (Bucket (Source config))
    (LocalDownloadPath (Source config)) (Region (Source config)) s1 = (Ok, s2) /\
  puts (st_log (main sample_world empty_st).2) =
  puts (st_log empty_st) ++ expected_puts (LocalDownloadPath (Source config))
                             (walk_visits sample_world s2 (LocalDownloadPath (Source config))).
Proof. apply main_success_puts. vm_compute. reflexivity. Defined.

(** [main] sends no [PutObject] request unless the configuration was
    read, the staging directory created and the download phase
    succeeded. *)
Theorem main_puts_need_download (w : World) (s0 : St) :
  puts (st_log (main w s0).2) <> puts (st_log s0) ->
  exists config s1 s2,
  w_config w = Some config /\
  mkdir_all w (LocalDownloadPath (Source config)) s0 = Some s1 /\
  downloadFiles w (AccessKey (Source config)) (SecretKey (Source config))
    (Endpoint (Source config)) (Bucket (Source config))
    (LocalDownloadPath (Source config)) (Region (Source config)) s1 = (Ok, s2).
Proof.
  unfold main. destruct (w_config w) as [config|]; [|by puts_simpl].
  destruct (mkdir_all w (LocalDownloadPath (Source config)) s0) as [s1|] eqn:Hm;
    [|by puts_simpl].
  destruct (downloadFiles _ _ _ _ _ _ _ s1) as [[|e|] s2] eqn:Hd.
  - intros _. by exists config, s1, s2.
  - intros H. exfalso. apply H. puts_simpl.
    pose proof (downloadFiles_puts w (AccessKey (Source config)) (SecretKey (Source config))
      (Endpoint (Source config)) (Bucket (Source config))
      (LocalDownloadPath (Source config)) (Region (Source config)) s1) as Hp.
    rewrite Hd in Hp. simpl in Hp. rewrite Hp.
    destruct (mkdir_all_Some w _ _ _ Hm) as (_ & _ & Hl & _). by rewrite Hl.
  - intros H. exfalso. apply H. puts_simpl.
    pose proof (downloadFiles_puts w (AccessKey (Source config)) (SecretKey (Source config))
      (Endpoint (Source config)) (Bucket (Source config))
      (LocalDownloadPath (Source config)) (Region (Source config)) s1) as Hp.
    rewrite Hd in Hp. simpl in Hp. rewrite Hp.
    destruct (mkdir_all_Some w _ _ _ Hm) as (_ & _ & Hl & _). by rewrite Hl.
Qed.

Lemma main_puts_need_download_witness :
  exists config s1 s2,
  w_config sample_world = Some config /\
  mkdir_all sample_world (LocalDownloadPath (Source config)) empty_st = Some s1 /\
  downloadFiles sample_world (AccessKey (Source config)) (SecretKey (Source config))
    (Endpoint (Source config)) (Bucket (Source config))
    (LocalDownloadPath (Source config)) (Region (Source config)) s1 = (Ok, s2).
Proof. apply main_puts_need_download. vm_compute. discriminate. Defined.

Lemma upload_visit_fs w bucket directory f s :
  st_files (upload_visit w bucket directory f s).2 = st_files s /\
  st_dirs (upload_visit w bucket directory f s).2 = st_dirs s.
Proof.
  destruct f as [p d]. unfold upload_visit.
  destruct (w_open_fails w p); [done|].
  destruct (Nat.ltb 0 (String.length d)); [|done].
  by destruct (w_put_fails w (toObjectKey directory p)).
Qed.

Lemma upload_walk_fs w bucket directory items s :
  st_files (upload_walk w bucket directory items s).2 = st_files s /\
  st_dirs (upload_walk w bucket directory items s).2 = st_dirs s.
Proof.
  revert s. induction items as [|it items IH]; intros s; [done|].
  rewrite upload_walk_cons.
  assert (H : st_files (walk_fn w bucket directory it s).2 = st_files s /\
              st_dirs (walk_fn w bucket directory it s).2 = st_dirs s).
  { destruct it as [p d|p|e]; [apply upload_visit_fs|done|done]. }
  destruct H as [H1 H2].
  destruct (walk_fn w bucket directory it s) as [[|e|] s1]; simpl in *.
  - destruct (IH s1) as [H3 H4]. by rewrite H3, H4.
  - done.
  - done.
Qed.

Lemma uploadFiles_fs w accessKey secretKey endpoint bucket directory region s :
  st_files (uploadFiles w accessKey secretKey endpoint bucket directory region s).2
    = st_files s /\
  st_dirs (uploadFiles w accessKey secretKey endpoint bucket directory region s).2
    = st_dirs s.
Proof.
  unfold uploadFiles. destruct (w_session_fails w endpoint region); [done|].
  apply upload_walk_fs.
Qed.

(** When the upload phase of [main] returns an error, [main] exits with
    status 1 after the upload error without removing anything: the
    staging tree is left as the download phase made it. *)
Theorem main_upload_failure_keeps_staging (w : World) (s0 s1 s2 s3 : St)
    (config : Config) (e : error) :
  w_config w = Some config ->
  mkdir_all w (LocalDownloadPath (Source config)) s0 = Some s1 ->
  downloadFiles w (AccessKey (Source config)) (SecretKey (Source config))
    (Endpoint (Source config)) (Bucket (Source config))
    (LocalDownloadPath (Source config)) (Region (Source config)) s1 = (Ok, s2) ->
  uploadFiles w (AccessKey (Destination config)) (SecretKey (Destination config))
    (Endpoint (Destination config)) (Bucket (Destination config))
    (LocalDownloadPath (Source config)) (Region (Destination config)) s2 = (Err e, s3) ->
  (main w s0).1 = 1%Z /\
  st_files (main w s0).2 = st_files s2 /\ st_dirs (main w s0).2 = st_dirs s2.
Proof.
  intros Hc Hm Hd Hu.
  rewrite (main_reaches_upload w s0 config s1 s2 Hc Hm Hd).
  pose proof (uploadFiles_fs w (AccessKey (Destination config)) (SecretKey (Destination config))
    (Endpoint (Destination config)) (Bucket (Destination config))
    (LocalDownloadPath (Source config)) (Region (Destination config)) s2) as [H1 H2].
  unfold main_upload_phase. rewrite Hu in H1, H2 |- *. simpl in *. by rewrite H1, H2.
Qed.

Lemma main_upload_failure_keeps_staging_witness :
  (main put_fail_world empty_st).1 = 1%Z /\
  st_files (main put_fail_world empty_st).2 =
    st_files (downloadFiles put_fail_world "AK" "SK" "http://source:9000" "src-bucket"
                "stage" "us-east-1"
                (default empty_st (mkdir_all put_fail_world "stage" empty_st))).2 /\
  st_dirs (main put_fail_world empty_st).2 =
    st_dirs (downloadFiles put_fail_world "AK" "SK" "http://source:9000" "src-bucket"
               "stage" "us-east-1"
               (default empty_st (mkdir_all put_fail_world "stage" empty_st))).2.
Proof.
  apply (main_upload_failure_keeps_staging put_fail_world empty_st
           (default empty_st (mkdir_all put_fail_world "stage" empty_st))
           (downloadFiles put_fail_world "AK" "SK" "http://source:9000" "src-bucket"
              "stage" "us-east-1"
              (default empty_st (mkdir_all put_fail_world "stage" empty_st))).2
           (uploadFiles put_fail_world "AK2" "SK2" "http://dest:9000" "dst-bucket"
              "stage" "us-east-1"
              (downloadFiles put_fail_world "AK" "SK" "http://source:9000" "src-bucket"
                 "stage" "us-east-1"
                 (default empty_st (mkdir_all put_fail_world "stage" empty_st))).2).2
           sample_config (ErrPut "dir/c.txt")); vm_compute; reflexivity.
Defined.

(** When a client session cannot be created, [session.Must] panics and
    the process exits with status 2 after the panic message: a failure
    for the source ends the run before the listing request, with the
    staging directory as [os.MkdirAll] left it; a failure for the
    destination ends it after the download phase, before any upload and
    without removing the staging tree. *)
Theorem main_session_panic (w : World) (s0 : St) (config : Config) :
  w_config w = Some config ->
  (forall s1,
   mkdir_all w (LocalDownloadPath (Source config)) s0 = Some s1 ->
   w_session_fails w (Endpoint (Source config)) (Region (Source config)) = true ->
   main w s0 = (2%Z, log EvPanic s1)) /\
  (forall s1 s2,
   mkdir_all w (LocalDownloadPath (Source config)) s0 = Some s1 ->
   downloadFiles w (AccessKey (Source config)) (SecretKey (Source config))
     (Endpoint (Source config)) (Bucket (Source config))
     (LocalDownloadPath (Source config)) (Region (Source config)) s1 = (Ok, s2) ->
   w_session_fails w (Endpoint (Destination config)) (Region (Destination config)) = true ->
   main w s0 = (2%Z, log EvPanic s2)).
Proof.
  intros Hc. split.
  - intros s1 Hm Hs. unfold main. rewrite Hc, Hm. unfold downloadFiles at 1.
    by rewrite Hs.
  - intros s1 s2 Hm Hd Hs. rewrite (main_reaches_upload w s0 config s1 s2 Hc Hm Hd).
    unfold main_upload_phase, uploadFiles at 1. by rewrite Hs.
Qed.

Lemma main_session_panic_witness :
  main session_fail_world empty_st = (2%Z, log EvPanic sample_staged).
Proof.
  apply (proj2 (main_session_panic session_fail_world empty_st sample_config eq_refl)
           (default empty_st (mkdir_all session_fail_world "stage" empty_st))
           sample_staged); vm_compute; reflexivity.
Defined.
